(** * The key-value indexing layer of freefeed-server ([DbAdapter])

    A shallow embedding of [mkKey] and of the [DbAdapter] methods that map
    accounts, posts, comments, attachments and timelines onto the commands
    of the key-value store, together with the properties proved about them.

    The store itself is an external collaborator: it is modelled here as a
    single key space of typed values with the documented semantics of each
    command the adapter issues.  Scores of sorted sets are integers
    (millisecond time stamps and counters). *)

From Stdlib Require Import ZArith String Ascii.
From Stdlib Require DecimalString DecimalPos.
From stdpp Require Import gmap strings list sorting.

Local Open Scope Z_scope.
Local Open Scope string_scope.

(** ** JavaScript values and errors *)

(** The JavaScript values that reach the adapter as key segments and that
    come back from the score lookups. *)
Inductive jsval :=
| JUndefined
| JNull
| JBool (b : bool)
| JNum (n : Z)
| JStr (s : string).

(** The errors the adapter throws and the error replies of the store. *)
Inductive error :=
| KeysShouldBeStrings          (* new Error('keys should be strings') *)
| AlreadyExists                (* new Error("Already exists") *)
| Expected (want got : string) (* new Error(`Expected ${want}, got ${got}`) *)
| TypeError                    (* a property read on null *)
| WrongType                    (* store reply: the key holds another kind of value *)
| WrongArity.                  (* store reply: the command has no field arguments *)

Inductive result (A : Type) :=
| Ok (a : A)
| Err (e : error).
Arguments Ok {A} a.
Arguments Err {A} e.

#[global] Instance jsval_eq_dec : EqDecision jsval.
Proof. solve_decision. Defined.
#[global] Instance error_eq_dec : EqDecision error.
Proof. solve_decision. Defined.

(** lodash's [isString]. *)
Definition isString (v : jsval) : bool :=
  match v with JStr _ => true | _ => false end.

(** JavaScript truthiness, as [&&] and [!] test it. *)
Definition truthy (v : jsval) : bool :=
  match v with
  | JUndefined | JNull => false
  | JBool b => b
  | JNum n => negb (n =? 0)%Z
  | JStr s => negb (String.eqb s "")
  end.

(** [a && b]: the left operand when it is falsy, the right one otherwise. *)
Definition js_and (a b : jsval) : jsval := if truthy a then b else a.

(** The value of a decimal digit. *)
Definition digit (c : ascii) : option Z :=
  let n := nat_of_ascii c in
  if ((48 <=? n) && (n <=? 57))%nat then Some (Z.of_nat (n - 48)) else None.

Fixpoint digits (acc : Z) (s : string) : option Z :=
  match s with
  | EmptyString => Some acc
  | String c s' =>
      match digit c with
      | Some d => digits (10 * acc + d) s'
      | None => None
      end
  end.

(** The number a text converts to, for the texts an integer is written
    as: the empty text is 0, and [None] stands for NaN. *)
Definition string_to_number (s : string) : option Z :=
  match s with
  | EmptyString => Some 0%Z
  | String "-" (String c s') => Z.opp <$> digits 0 (String c s')
  | String "+" (String c s') => digits 0 (String c s')
  | _ => digits 0 s
  end.

(** ToNumber; [None] stands for NaN. *)
Definition to_number (v : jsval) : option Z :=
  match v with
  | JUndefined => None
  | JNull => Some 0%Z
  | JBool b => Some (if b then 1 else 0)%Z
  | JNum n => Some n
  | JStr s => string_to_number s
  end.

(** [v >= 0]: both sides are converted to numbers, and a comparison with
    NaN is false. *)
Definition js_ge0 (v : jsval) : jsval :=
  JBool (match to_number v with Some n => (0 <=? n)%Z | None => false end).

(** ** Key Composer *)

Definition sep : string := ":".

(** The text a segment contributes to [keys.join(sep)] once every segment
    has passed the [isString] test. *)
Definition segment (v : jsval) : string :=
  match v with JStr s => s | _ => "" end.

(** [mkKey]: the loop throws at the first segment that is not a string,
    otherwise the segments are joined with [sep]. *)
Definition mkKey (keys : list jsval) : result string :=
  if forallb isString keys
  then Ok (String.concat sep (segment <$> keys))
  else Err KeysShouldBeStrings.

(** ** The store *)

Abbreviation fields := (gmap string string).
Abbreviation zset := (gmap string Z).

(** What one key of the store holds. *)
Inductive value :=
| VStr (v : string)
| VHash (h : fields)
| VZSet (z : zset)
| VSet (x : gset string)
| VList (l : list string).

Abbreviation store := (gmap string value).

(** An adapter method: it threads the store and either resolves with a
    value or rejects with an error. *)
Definition M (A : Type) : Type := store → store * result A.

Definition ret {A} (a : A) : M A := λ s, (s, Ok a).
Definition throw {A} (e : error) : M A := λ s, (s, Err e).

(** [await m] followed by the rest of the method: a rejection of [m] ends
    the method, and what was written before stays written. *)
Definition bind {A B} (m : M A) (f : A → M B) : M B :=
  λ s, match m s with
       | (s', Ok a) => f a s'
       | (s', Err e) => (s', Err e)
       end.

(** A computation without store access, such as [mkKey]. *)
Definition pure {A} (r : result A) : M A := λ s, (s, r).

Notation "'let*' x := m 'in' f" := (bind m (λ x, f))
  (at level 10, x name, m at level 100, f at level 200, only parsing).
Notation "'await' m 'in' f" := (bind m (λ _, f))
  (at level 10, m at level 100, f at level 200, only parsing).

(** ** Commands of the store

    Each definition is one command of the client held in [this.database],
    with the reply the promisified call resolves to. *)

(** EXISTS: the integer 1 when the key holds a value of any kind. *)
Definition existsAsync (key : string) : M Z :=
  λ s, (s, Ok (if s !! key is Some _ then 1 else 0)%Z).

(** HGETALL: the fields of the hash, [null] (here [None]) when the key is
    absent. *)
Definition hgetall (s : store) (key : string) : result (option fields) :=
  match s !! key with
  | None => Ok None
  | Some (VHash h) => Ok (Some h)
  | Some _ => Err WrongType
  end.

Definition hgetallAsync (key : string) : M (option fields) :=
  λ s, (s, hgetall s key).

(** HMSET: the given fields are merged into the hash at the key, which is
    created when absent; the fields already there and not given are kept. *)
Definition hmsetAsync (key : string) (payload : fields) : M unit :=
  λ s, if decide (payload = ∅) then (s, Err WrongArity)
       else match s !! key with
            | None => (<[key := VHash payload]> s, Ok tt)
            | Some (VHash h) => (<[key := VHash (payload ∪ h)]> s, Ok tt)
            | Some _ => (s, Err WrongType)
            end.

(** DEL: the key is removed whatever it holds; the reply counts the keys
    removed. *)
Definition delAsync (key : string) : M Z :=
  λ s, (delete key s, Ok (if s !! key is Some _ then 1 else 0)%Z).

(** GET *)
Definition getAsync (key : string) : M (option string) :=
  λ s, (s, match s !! key with
           | None => Ok None
           | Some (VStr v) => Ok (Some v)
           | Some _ => Err WrongType
           end).

(** SET: overwrites the key whatever it held. *)
Definition setAsync (key v : string) : M unit :=
  λ s, (<[key := VStr v]> s, Ok tt).

(** The sorted set a key stands for when a sorted-set command reads it: an
    absent key is the empty sorted set. *)
Definition zset_at (s : store) (key : string) : result zset :=
  match s !! key with
  | None => Ok ∅
  | Some (VZSet z) => Ok z
  | Some _ => Err WrongType
  end.

(** The sorted set a source key of a set-algebra command stands for: these
    commands also read a plain set, as a sorted set whose members all have
    score 1. *)
Definition zsource_at (s : store) (key : string) : result zset :=
  match s !! key with
  | None => Ok ∅
  | Some (VZSet z) => Ok z
  | Some (VSet x) => Ok (gset_to_gmap 1%Z x)
  | Some _ => Err WrongType
  end.

Section ScoreReply.

(** The value the client of the store hands back for a score.  The client
    is what the adapter is constructed with; it is not among the
    sources. *)
Variable score_value : Z → jsval.

(** The reply of a score lookup: the score, [null] when there is none. *)
Definition score_reply (score : option Z) : jsval :=
  match score with Some n => score_value n | None => JNull end.

(** ZSCORE: the score of the member, [null] when the member or the key is
    absent. *)
Definition zscoreAsync (key element : string) : M jsval :=
  λ s, (s, match zset_at s key with
           | Ok z => Ok (score_reply (z !! element))
           | Err e => Err e
           end).

End ScoreReply.

(** Modelled from the spec: the client of the store is not among the
    sources; section 6 of the specification gives the reply of a score
    lookup as a number. *)
Definition number_reply : Z → jsval := JNum.

(** The text of an integer as the store writes a score in a reply: its
    decimal digits, after a minus sign when it is negative. *)
Definition decimal (n : Z) : string :=
  DecimalString.NilZero.string_of_int (Z.to_int n).

(** ZSCORE replies with the score as a bulk string, and the client of
    the store, which is not among the sources, hands a bulk string back
    as a JavaScript string: the reply the protocol of the store
    documents, where [number_reply] is the one the specification
    describes. *)
Definition text_reply (n : Z) : jsval := JStr (decimal n).

(** ZADD: the member gets the score, whether it was present or not; the
    reply counts the members added. *)
Definition zaddAsync (key : string) (score : Z) (element : string) : M Z :=
  λ s, match zset_at s key with
       | Ok z => (<[key := VZSet (<[element := score]> z)]> s,
                  Ok (if z !! element is Some _ then 0 else 1)%Z)
       | Err e => (s, Err e)
       end.

(** What the set-algebra commands leave at the destination: the result,
    or nothing at all when the result is empty.  The destination is
    overwritten whatever it held. *)
Definition zstore (dest : string) (z : zset) (s : store) : store :=
  if decide (z = ∅) then delete dest s else <[dest := VZSet z]> s.

Definition aggregate_max (x y : Z) : option Z := Some (Z.max x y).

(** ZUNIONSTORE dest 2 k1 k2 AGGREGATE MAX; the reply is the number of
    members stored. *)
Definition zunionstoreAsync (dest k1 k2 : string) : M Z :=
  λ s, match zsource_at s k1, zsource_at s k2 with
       | Ok z1, Ok z2 =>
           let z := union_with aggregate_max z1 z2 in
           (zstore dest z s, Ok (Z.of_nat (size z)))
       | Err e, _ | _, Err e => (s, Err e)
       end.

(** ZINTERSTORE dest 2 k1 k2 AGGREGATE MAX *)
Definition zinterstoreAsync (dest k1 k2 : string) : M Z :=
  λ s, match zsource_at s k1, zsource_at s k2 with
       | Ok z1, Ok z2 =>
           let z := intersection_with aggregate_max z1 z2 in
           (zstore dest z s, Ok (Z.of_nat (size z)))
       | Err e, _ | _, Err e => (s, Err e)
       end.

(** The rank order of a sorted set: by score, and by the bytes of the
    member among equal scores. *)
Definition rank_le (a b : string * Z) : Prop :=
  (a.2 < b.2)%Z ∨ (a.2 = b.2 ∧ String.leb a.1 b.1 = true).

#[global] Instance rank_le_dec : RelDecision rank_le.
Proof. intros a b. unfold rank_le. apply _. Defined.

(** The entries of a sorted set from the lowest rank to the highest. *)
Definition by_rank (z : zset) : list (string * Z) :=
  merge_sort rank_le (map_to_list z).

(** The part of a list between two indices of a range command: both ends
    are included, and a negative index counts from the end. *)
Definition index_range {A} (l : list A) (start stop : Z) : list A :=
  let n := Z.of_nat (length l) in
  let a := if (start <? 0)%Z then Z.max 0 (n + start) else start in
  let b := if (stop <? 0)%Z then (n + stop)%Z else Z.min stop (n - 1) in
  if (b <? a)%Z then [] else take (Z.to_nat (b - a + 1)) (drop (Z.to_nat a) l).

(** ZRANGE: the members between two ranks, lowest rank first. *)
Definition zrangeAsync (key : string) (start stop : Z) : M (list string) :=
  λ s, (s, match zset_at s key with
           | Ok z => Ok (index_range (by_rank z).*1 start stop)
           | Err e => Err e
           end).

(** The object a reply of the batch is: the fields of a hash, or the error
    object of a command that failed, which the batch leaves at the
    position of that command. *)
Inductive jsobj :=
| ObjFields (h : fields)
| ObjError (e : error).

Inductive command :=
| HGETALL (key : string).

Definition reply_of (s : store) (c : command) : option jsobj :=
  match c with
  | HGETALL key =>
      match hgetall s key with
      | Ok None => None
      | Ok (Some h) => Some (ObjFields h)
      | Err e => Some (ObjError e)
      end
  end.

(** [batch(requests).execAsync()]: one reply per request, in the order of
    the requests. *)
Definition batch_execAsync (requests : list command) : M (list (option jsobj)) :=
  λ s, (s, Ok (reply_of s <$> requests)).

(** ** Model objects *)

(** The account classes of ['../models'] that the adapter instantiates. *)
Inductive classDef := User | Group.

#[global] Instance classDef_eq_dec : EqDecision classDef.
Proof. solve_decision. Defined.

(** [classDef.name], as the error messages print it. *)
Definition class_name (c : classDef) : string :=
  match c with User => "User" | Group => "Group" end.

(** An instance made by [initObject]: its class, the attributes it was
    built from and the [id] added to them. *)
Record object := mkObject {
  class_of : classDef;
  attrs_of : jsobj;
  id_of : jsval
}.

(** [DbAdapter.initObject(classDef, attrs, id)]; the callers below pass no
    [params]. *)
Definition initObject (c : classDef) (attrs : jsobj) (id : jsval) : object :=
  mkObject c attrs id.

(** Modelled from the spec: the classes [User] and [Group] are declared in
    ['../models'], which is not among the sources; the spec describes the
    account as a tagged union of the two variants (sections 3 and 9), in
    which an object is an instance of exactly the class it was built
    with. *)
Definition tagged_union (c d : classDef) : bool := bool_decide (c = d).

(** [attrs.type] on an object of a reply: the error object of a failed
    command has no such property. *)
Definition type_of (attrs : jsobj) : option string :=
  match attrs with
  | ObjFields h => h !! "type"
  | ObjError _ => None
  end.

(** A property read off a payload, as a JavaScript value: [undefined]
    when the payload has no such field. *)
Definition js (o : option string) : jsval :=
  match o with Some v => JStr v | None => JUndefined end.

(** The property name [payload[name] = ...] writes to. *)
Definition property_key (o : option string) : string :=
  match o with Some v => v | None => "undefined" end.

(** ASCII letters of [String.prototype.toLowerCase]; other bytes are kept. *)
Definition lower_ascii (c : ascii) : ascii :=
  let n := nat_of_ascii c in
  if ((65 <=? n) && (n <=? 90))%nat then ascii_of_nat (n + 32) else c.

Fixpoint toLowerCase (s : string) : string :=
  match s with
  | EmptyString => EmptyString
  | String c s' => String (lower_ascii c) (toLowerCase s')
  end.

(** [xs.map(f)] for an [f] that may throw: the first exception ends the
    loop.  The index is passed along as [Array.prototype.map] does. *)
Fixpoint map_from {A B} (i : nat) (f : A → nat → result B) (l : list A)
  : result (list B) :=
  match l with
  | [] => Ok []
  | x :: l' =>
      match f x i with
      | Err e => Err e
      | Ok y =>
          match map_from (S i) f l' with
          | Err e => Err e
          | Ok ys => Ok (y :: ys)
          end
      end
  end.

Definition js_map {A B} (f : A → nat → result B) (l : list A) : result (list B) :=
  map_from 0 f l.

(** Errors thrown by the adapter's own code, as opposed to the replies of
    the store that reject a promise. *)
Definition synchronous (e : error) : bool :=
  match e with
  | KeysShouldBeStrings | TypeError | AlreadyExists | Expected _ _ => true
  | WrongType | WrongArity => false
  end.

(** [await Promise.all(promises)] over promises created one after the
    other.  A command is issued when its promise is created, so a command
    the store rejects does not keep the later ones from being issued,
    whereas an exception thrown while a promise is being created leaves the
    later ones uncreated and is what the method fails with.  Otherwise
    the outcome is the first rejection, if any. *)
Fixpoint promise_all (promises : list (M unit)) : M unit :=
  match promises with
  | [] => ret tt
  | p :: rest =>
      λ s, match p s with
           | (s', Ok _) => promise_all rest s'
           | (s', Err e) =>
               if synchronous e then (s', Err e)
               else match promise_all rest s' with
                    | (s'', Err e') => (s'', Err (if synchronous e' then e' else e))
                    | (s'', Ok _) => (s'', Err e)
                    end
           end
  end.

(** ** DbAdapter: base methods *)

Definition _existsRecord (key : string) : M Z := existsAsync key.
Definition _getRecord (key : string) : M (option fields) := hgetallAsync key.
Definition _createRecord (key : string) (payload : fields) : M unit :=
  hmsetAsync key payload.
Definition _updateRecord (key : string) (payload : fields) : M unit :=
  hmsetAsync key payload.
Definition _deleteRecord (key : string) : M Z := delAsync key.
Definition _getIndexValue (key : string) : M (option string) := getAsync key.
Definition _setIndexValue (key v : string) : M unit := setAsync key v.

Definition _addElementToSortedSet (key : string) (score : Z) (element : string)
  : M Z :=
  zaddAsync key score element.

Definition _normalizeUserEmail (email : string) : string := toLowerCase email.

(** ** DbAdapter: AbstractModel *)

Definition findRecordsByIds (modelName : string) (modelIds : list string)
  : M (list (option jsobj)) :=
  let* keys := pure (js_map (λ id _, mkKey [JStr modelName; JStr id]) modelIds) in
  let requests := HGETALL <$> keys in
  batch_execAsync requests.

(** ** DbAdapter: user indexes *)

Definition existsUsername (username : string) : M Z :=
  let* key := pure (mkKey [JStr "username"; JStr username; JStr "uid"]) in
  _existsRecord key.

Definition getUserIdByUsername (username : string) : M (option string) :=
  let* key := pure (mkKey [JStr "username"; JStr username; JStr "uid"]) in
  _getIndexValue key.

Definition _createUserUsernameIndex (userId : string) (username : jsval) : M unit :=
  let* key := pure (mkKey [JStr "username"; username; JStr "uid"]) in
  _setIndexValue key userId.

Definition getUserIdByEmail (email : string) : M (option string) :=
  let* key := pure (mkKey [JStr "email"; JStr (_normalizeUserEmail email); JStr "uid"]) in
  _getIndexValue key.

Definition createUserEmailIndex (userId email : string) : M unit :=
  let* key := pure (mkKey [JStr "email"; JStr (_normalizeUserEmail email); JStr "uid"]) in
  _setIndexValue key userId.

(** ** DbAdapter: users *)

(** [uuid.v4()] is an input of every method that draws an identifier. *)
Definition createUser (uuid : string) (payload : fields) : M string :=
  let userId := uuid in
  let username := payload !! "username" in
  let email := payload !! "email" in
  let* userKey := pure (mkKey [JStr "user"; JStr userId]) in
  let* exists_ := _existsRecord userKey in
  if negb (exists_ =? 0)%Z then throw AlreadyExists else
  let promises :=
    ([ _createUserUsernameIndex userId (js username);
       _createRecord userKey payload ] ++
     match email with
     | Some e =>
         if (0 <? String.length e)%nat then [ createUserEmailIndex userId e ] else []
     | None => []
     end)%list in
  await promise_all promises in
  ret userId.

Definition updateUser (userId : string) (payload : fields) : M unit :=
  let* key := pure (mkKey [JStr "user"; JStr userId]) in
  _updateRecord key payload.

Definition getFeedOwnerById (id : string) : M (option object) :=
  let* key := pure (mkKey [JStr "user"; JStr id]) in
  let* attrs := _getRecord key in
  match attrs with
  | None => ret None
  | Some h =>
      if bool_decide (h !! "type" = Some "group")
      then ret (Some (initObject Group (ObjFields h) (JStr id)))
      else ret (Some (initObject User (ObjFields h) (JStr id)))
  end.

(** The callback of [responses.map] in [getFeedOwnersByIds]: reading
    [attrs.type] throws when [attrs] is [null]. *)
Definition feedOwnerOfReply (ids : list string) (attrs : option jsobj) (i : nat)
  : result object :=
  match attrs with
  | None => Err TypeError
  | Some a =>
      if bool_decide (type_of a = Some "group")
      then Ok (initObject Group a (js (ids !! i)))
      else Ok (initObject User a (js (ids !! i)))
  end.

Definition getFeedOwnersByIds (ids : list string) : M (list object) :=
  let* responses := findRecordsByIds "user" ids in
  let* objects := pure (js_map (feedOwnerOfReply ids) responses) in
  ret objects.

Section Models.

(** The class hierarchy of ['../models'], which is not among the
    sources: [derives c d] holds when an instance of the class [c] is
    also an instance of [d]. *)
Variable derives : classDef → classDef → bool.

(** [o instanceof c] *)
Definition instanceOf (o : object) (c : classDef) : bool :=
  derives (class_of o) c.

Definition getUserById (id : string) : M (option object) :=
  let* user := getFeedOwnerById id in
  match user with
  | None => ret None
  | Some u =>
      if negb (instanceOf u User)
      then throw (Expected "User" (class_name (class_of u)))
      else ret (Some u)
  end.

Definition getGroupById (id : string) : M (option object) :=
  let* user := getFeedOwnerById id in
  match user with
  | None => ret None
  | Some u =>
      if negb (instanceOf u Group)
      then throw (Expected "Group" (class_name (class_of u)))
      else ret (Some u)
  end.

Definition getUsersByIds (userIds : list string) : M (list object) :=
  let* users := getFeedOwnersByIds userIds in
  let* _checked :=
    pure (js_map (λ user _,
            if negb (instanceOf user User)
            then Err (Expected "User" (class_name (class_of user)))
            else Ok tt) users) in
  ret users.

End Models.

Definition getFeedOwnerByUsername (username : string) : M (option object) :=
  let* identifier := getUserIdByUsername (toLowerCase username) in
  match identifier with
  | None => ret None
  | Some uid => getFeedOwnerById uid
  end.

(** ** DbAdapter: timelines *)

Definition getUserDiscussionsTimelineId (userId : string) : string := userId.

Definition _createUserTimeline (userId : jsval) (timelineName : option string)
    (timelineId : string) : M unit :=
  let payload : fields := {[ property_key timelineName := timelineId ]} in
  let* key := pure (mkKey [JStr "user"; userId; JStr "timelines"]) in
  _createRecord key payload.

Definition _createTimeline (timelineId : string) (userId : jsval) (payload : fields)
  : M string :=
  let* timelineKey := pure (mkKey [JStr "timeline"; JStr timelineId]) in
  let name := payload !! "name" in
  let* exists_ := _existsRecord timelineKey in
  if negb (exists_ =? 0)%Z then throw AlreadyExists else
  let promises :=
    [ _createUserTimeline userId name timelineId;
      _createRecord timelineKey payload ] in
  await promise_all promises in
  ret timelineId.

Definition createTimeline (uuid : string) (payload : fields) : M string :=
  let timelineId := uuid in
  let userId := payload !! "userId" in
  _createTimeline timelineId (js userId) payload.

Definition createUserDiscussionsTimeline (userId : string) (payload : fields)
  : M string :=
  let timelineId := getUserDiscussionsTimelineId userId in
  _createTimeline timelineId (JStr userId) payload.

Definition addPostToTimeline (timelineId : string) (time : Z) (postId : string) : M Z :=
  let* key := pure (mkKey [JStr "timeline"; JStr timelineId; JStr "posts"]) in
  _addElementToSortedSet key time postId.

Definition createMergedPostsTimeline
    (destinationTimelineId sourceTimelineId1 sourceTimelineId2 : string) : M Z :=
  let* dest := pure (mkKey [JStr "timeline"; JStr destinationTimelineId; JStr "posts"]) in
  let* k1 := pure (mkKey [JStr "timeline"; JStr sourceTimelineId1; JStr "posts"]) in
  let* k2 := pure (mkKey [JStr "timeline"; JStr sourceTimelineId2; JStr "posts"]) in
  zunionstoreAsync dest k1 k2.

Definition _getPostsTimelinesIntersection
    (destKey sourceTimelineId1 sourceTimelineId2 : string) : M Z :=
  let* k1 := pure (mkKey [JStr "timeline"; JStr sourceTimelineId1; JStr "posts"]) in
  let* k2 := pure (mkKey [JStr "timeline"; JStr sourceTimelineId2; JStr "posts"]) in
  zinterstoreAsync destKey k1 k2.

Definition _getTimelinesIntersectionPosts (key : string) : M (list string) :=
  zrangeAsync key 0 (-1).

Definition getTimelinesIntersectionPostIds (uuid timelineId1 timelineId2 : string)
  : M (list string) :=
  let* randomKey :=
    pure (mkKey [JStr "timeline"; JStr timelineId1; JStr "random"; JStr uuid]) in
  await _getPostsTimelinesIntersection randomKey timelineId2 timelineId1 in
  let* postIds := _getTimelinesIntersectionPosts randomKey in
  await _deleteRecord randomKey in
  ret postIds.

(** ** DbAdapter: score lookups *)

(** [score && score >= 0] *)
Definition score_present (score : jsval) : jsval :=
  js_and score (js_ge0 score).

Section ScoreLookups.

(** The value the client hands back for a score, as in [zscoreAsync]. *)
Variable score_value : Z → jsval.

Definition _getSortedSetElementScore (key element : string) : M jsval :=
  zscoreAsync score_value key element.

Definition isPostPresentInTimeline (timelineId postId : string) : M jsval :=
  let* key := pure (mkKey [JStr "timeline"; JStr timelineId; JStr "posts"]) in
  let* score := _getSortedSetElementScore key postId in
  ret (score_present score).

Definition hasUserLikedPost (userId postId : string) : M jsval :=
  let* key := pure (mkKey [JStr "post"; JStr postId; JStr "likes"]) in
  let* score := _getSortedSetElementScore key userId in
  ret (score_present score).

Definition isSubscriptionRequestPresent (currentUserId followedUserId : string)
  : M jsval :=
  let* key := pure (mkKey [JStr "user"; JStr followedUserId; JStr "requests"]) in
  let* score := _getSortedSetElementScore key currentUserId in
  ret (score_present score).

End ScoreLookups.

(** ** DbAdapter: posts, comments, attachments *)

Definition createPost (uuid : string) (payload : fields) : M string :=
  let postId := uuid in
  let* key := pure (mkKey [JStr "post"; JStr postId]) in
  let* exists_ := _existsRecord key in
  if negb (exists_ =? 0)%Z then throw AlreadyExists else
  await _createRecord key payload in
  ret postId.

Definition createUserPostLike (now : Z) (postId userId : string) : M Z :=
  let* key := pure (mkKey [JStr "post"; JStr postId; JStr "likes"]) in
  _addElementToSortedSet key now userId.

Definition createComment (uuid : string) (payload : fields) : M string :=
  let commentId := uuid in
  let* key := pure (mkKey [JStr "comment"; JStr commentId]) in
  let* exists_ := _existsRecord key in
  if negb (exists_ =? 0)%Z then throw AlreadyExists else
  await _createRecord key payload in
  ret commentId.

Definition createAttachment (uuid : string) (payload : fields) : M string :=
  let attachmentId := uuid in
  let* attachmentKey := pure (mkKey [JStr "attachment"; JStr attachmentId]) in
  let* exists_ := _existsRecord attachmentKey in
  if negb (exists_ =? 0)%Z then throw AlreadyExists else
  await _createRecord attachmentKey payload in
  ret attachmentId.

(** * Vocabulary of the statements *)

(** What a presence test answers for a member whose stored score is
    [score]: it resolves without touching the store; the answer is truthy
    exactly when a score is stored and is positive, and is then [true];
    for no score it is [null], for a negative score [false] and for the
    score zero the number [0], all three falsy. *)
Definition presence_answer (s : store) (score : option Z)
    (outcome : store * result jsval) : Prop :=
  ∃ v : jsval,
    outcome = (s, Ok v) ∧
    (truthy v = true ↔ ∃ n, score = Some n ∧ (0 < n)%Z) ∧
    (truthy v = true → v = JBool true) ∧
    (score = None → v = JNull) ∧
    (∀ n, score = Some n → (n < 0)%Z → v = JBool false) ∧
    (score = Some 0%Z → v = JNum 0).

(** What a presence test answers when the score comes back as its
    decimal text: the answer is truthy exactly when a score is stored and
    is not negative, and is then [true]; for no score it is [null] and
    for a negative score [false], both falsy; the score zero is among
    those answered with [true]. *)
Definition presence_answer_of_text (s : store) (score : option Z)
    (outcome : store * result jsval) : Prop :=
  ∃ v : jsval,
    outcome = (s, Ok v) ∧
    (truthy v = true ↔ ∃ n, score = Some n ∧ (0 ≤ n)%Z) ∧
    (truthy v = true → v = JBool true) ∧
    (score = None → v = JNull) ∧
    (∀ n, score = Some n → (n < 0)%Z → v = JBool false) ∧
    (score = Some 0%Z → v = JBool true).

(** The shape every guarded creation has: on a store where [key] holds a
    value the method rejects with "Already exists" and the store stays as
    it was; on a store where [key] is absent and that is [ready] for the
    writes, the method resolves with [id] and the store is [written]. *)
Definition guarded_create (create : M string) (key id : string)
    (ready : store → Prop) (written : store → store) : Prop :=
  ∀ s : store,
    (s !! key ≠ None → create s = (s, Err AlreadyExists)) ∧
    (s !! key = None → ready s → create s = (written s, Ok id)).

(** The hash a key stands for when a record is merged into it. *)
Definition record_at (s : store) (key : string) : result fields :=
  match s !! key with
  | None => Ok ∅
  | Some (VHash h) => Ok h
  | Some _ => Err WrongType
  end.

(** The writes of [createUser]: the username index, the record, and the
    email index when the payload has a non-empty [email]. *)
Definition createUser_writes (userId username : string) (payload : fields)
    (s : store) : store :=
  let s1 := <["username:" +:+ username +:+ ":uid" := VStr userId]> s in
  let s2 := <["user:" +:+ userId := VHash payload]> s1 in
  match payload !! "email" with
  | Some e =>
      if (0 <? String.length e)%nat
      then <["email:" +:+ toLowerCase e +:+ ":uid" := VStr userId]> s2
      else s2
  | None => s2
  end.


(** ** Example data *)

Definition alice : fields := {[ "username" := "alice" ]}.
Definition Alice : fields := {[ "username" := "Alice" ]}.
Definition devs : fields := {[ "username" := "devs"; "type" := "group" ]}.


(** The store a method leaves. *)
Definition after {A} (m : M A) (s : store) : store := (m s).1.

(** The store after a user and a group have been created. *)
Definition accounts : store :=
  after (createUser "g1" devs) (after (createUser "u1" alice) ∅).

(** The store after a user has been created with a capitalised username. *)
Definition capitalised : store := after (createUser "u1" Alice) ∅.

Definition postsA : zset := {[ "post1" := 10%Z; "post2" := 30%Z ]}.
Definition postsB : zset := {[ "post2" := 20%Z; "post3" := 5%Z ]}.
Definition postsC : zset := {[ "post1" := 10%Z ]}.
Definition postsD : zset := {[ "post1" := 20%Z; "post2" := 5%Z ]}.

(** Four timelines: A and B share post2, C and D share post1. *)
Definition timelines : store :=
  after (addPostToTimeline "D" 5 "post2")
    (after (addPostToTimeline "D" 20 "post1")
       (after (addPostToTimeline "C" 10 "post1")
          (after (addPostToTimeline "B" 5 "post3")
             (after (addPostToTimeline "B" 20 "post2")
                (after (addPostToTimeline "A" 30 "post2")
                   (after (addPostToTimeline "A" 10 "post1") ∅)))))).

Definition likes : zset := {[ "bob" := 100%Z; "carol" := 0%Z; "dave" := (-5)%Z ]}.

(** The post P liked at the times 100, 0 and -5. *)
Definition liked : store :=
  after (createUserPostLike (-5) "P" "dave")
    (after (createUserPostLike 0 "P" "carol")
       (after (createUserPostLike 100 "P" "bob") ∅)).

(** * The rest of the adapter *)

(** ** Further commands of the store *)

(** ZCARD *)
Definition zcardAsync (key : string) : M Z :=
  λ s, (s, match zset_at s key with
           | Ok z => Ok (Z.of_nat (size z))
           | Err e => Err e
           end).

(** ZREM: the member is removed, and the key with its last member; the
    reply counts the members removed. *)
Definition zremAsync (key element : string) : M Z :=
  λ s, match zset_at s key with
       | Ok z => (zstore key (delete element z) s,
                  Ok (if z !! element is Some _ then 1 else 0)%Z)
       | Err e => (s, Err e)
       end.

(** ZREVRANGE: the members between two ranks counted from the highest
    rank, highest rank first. *)
Definition zrevrangeAsync (key : string) (start stop : Z) : M (list string) :=
  λ s, (s, match zset_at s key with
           | Ok z => Ok (index_range (reverse (by_rank z)).*1 start stop)
           | Err e => Err e
           end).

(** ZREVRANGEBYSCORE key max min: the members whose score lies between
    [min] and [max], both included, highest rank first. *)
Definition zrevrangebyscoreAsync (key : string) (max min : Z) : M (list string) :=
  λ s, (s, match zset_at s key with
           | Ok z =>
               Ok (filter (λ e, (min ≤ e.2 ∧ e.2 ≤ max)%Z) (reverse (by_rank z))).*1
           | Err e => Err e
           end).

Section ScoreIncrement.

(** The value the client hands back for a score, as in [zscoreAsync]. *)
Variable score_value : Z → jsval.

(** ZINCRBY: the score of the member, 0 when it has none, grows by the
    increment; the reply is the new score. *)
Definition zincrbyAsync (key : string) (increment : Z) (member : string) : M jsval :=
  λ s, match zset_at s key with
       | Ok z =>
           let n := (default 0 (z !! member) + increment)%Z in
           (<[key := VZSet (<[member := n]> z)]> s, Ok (score_value n))
       | Err e => (s, Err e)
       end.

End ScoreIncrement.

(** The set a key stands for when a set command reads it. *)
Definition set_at (s : store) (key : string) : result (gset string) :=
  match s !! key with
  | None => Ok ∅
  | Some (VSet x) => Ok x
  | Some _ => Err WrongType
  end.

(** SADD with the members the client sends: one for a string, all the
    elements for an array, which the client flattens.  The reply counts
    the members that were not yet in the set. *)
Definition saddAsync (key : string) (members : list string) : M Z :=
  λ s, match members with
       | [] => (s, Err WrongArity)
       | _ => match set_at s key with
              | Ok x => (<[key := VSet (x ∪ list_to_set members)]> s,
                         Ok (Z.of_nat (size (list_to_set members ∖ x))))
              | Err e => (s, Err e)
              end
       end.

(** SREM: the member is removed, and the key with its last member. *)
Definition sremAsync (key element : string) : M Z :=
  λ s, match set_at s key with
       | Ok x =>
           let x' := x ∖ {[element]} in
           ((if decide (x' = ∅) then delete key s else <[key := VSet x']> s),
            Ok (if decide (element ∈ x) then 1 else 0)%Z)
       | Err e => (s, Err e)
       end.

(** SMEMBERS: the members, in an order the store chooses. *)
Definition smembersAsync (key : string) : M (list string) :=
  λ s, (s, match set_at s key with
           | Ok x => Ok (elements x)
           | Err e => Err e
           end).

(** SCARD *)
Definition scardAsync (key : string) : M Z :=
  λ s, (s, match set_at s key with
           | Ok x => Ok (Z.of_nat (size x))
           | Err e => Err e
           end).

(** The list a key stands for when a list command reads it. *)
Definition list_at (s : store) (key : string) : result (list string) :=
  match s !! key with
  | None => Ok []
  | Some (VList l) => Ok l
  | Some _ => Err WrongType
  end.

(** RPUSH: the value is appended at the tail; the reply is the new
    length. *)
Definition rpushAsync (key v : string) : M Z :=
  λ s, match list_at s key with
       | Ok l => (<[key := VList (l ++ [v])]> s, Ok (Z.of_nat (length l) + 1)%Z)
       | Err e => (s, Err e)
       end.

(** LLEN *)
Definition llenAsync (key : string) : M Z :=
  λ s, (s, match list_at s key with
           | Ok l => Ok (Z.of_nat (length l))
           | Err e => Err e
           end).

(** LRANGE *)
Definition lrangeAsync (key : string) (start stop : Z) : M (list string) :=
  λ s, (s, match list_at s key with
           | Ok l => Ok (index_range l start stop)
           | Err e => Err e
           end).

(** The list without the first [n] occurrences of a value. *)
Fixpoint remove_occurrences (n : nat) (v : string) (l : list string) : list string :=
  match l with
  | [] => []
  | x :: l' =>
      match n with
      | O => x :: l'
      | S n' =>
          if decide (x = v) then remove_occurrences n' v l'
          else x :: remove_occurrences n v l'
      end
  end.

(** What LREM count value leaves of a list: for a positive count the
    first occurrences are removed, for a negative one the last, and for
    the count 0 all of them. *)
Definition lrem (count : Z) (v : string) (l : list string) : list string :=
  if (count =? 0)%Z then filter (λ x, x ≠ v) l
  else if (0 <? count)%Z then remove_occurrences (Z.to_nat count) v l
  else reverse (remove_occurrences (Z.to_nat (- count)) v (reverse l)).

(** LREM: the key goes with the last element of its list; the reply
    counts the elements removed. *)
Definition lremAsync (key : string) (count : Z) (v : string) : M Z :=
  λ s, match list_at s key with
       | Ok l =>
           let l' := lrem count v l in
           ((if decide (l' = []) then delete key s else <[key := VList l']> s),
            Ok (Z.of_nat (length l) - Z.of_nat (length l'))%Z)
       | Err e => (s, Err e)
       end.

(** ** Model objects with parameters *)

(** The other model classes of ['../models']. *)
Inductive modelDef := Timeline | Post | Stats | Comment | Attachment.

(** An instance made by [initObject] with its [params]: the class and the
    three objects spread, in this order, into the argument of the
    constructor. *)
Record instance (P : Type) := mkInstance {
  model_of : modelDef;
  spread_attrs : option jsobj;
  spread_id : jsval;
  spread_params : P
}.
Arguments mkInstance {P} _ _ _ _.
Arguments model_of {P} _.
Arguments spread_attrs {P} _.
Arguments spread_id {P} _.
Arguments spread_params {P} _.

(** [DbAdapter.initObject(classDef, attrs, id, params)] *)
Definition initObjectWith {P} (m : modelDef) (attrs : option jsobj) (id : jsval)
    (params : P) : instance P :=
  mkInstance m attrs id params.

(** [responses.map((attrs, i) => DbAdapter.initObject(classDef, attrs, ids[i], params))] *)
Definition instancesOfReplies {P} (m : modelDef) (ids : list string) (params : P)
    (responses : list (option jsobj)) : list (instance P) :=
  imap (λ i attrs, initObjectWith m attrs (js (ids !! i)) params) responses.

(** ** DbAdapter: records by id *)

Definition findRecordById (modelName modelId : string) : M (option fields) :=
  let* key := pure (mkKey [JStr modelName; JStr modelId]) in
  _getRecord key.

(** The shape of [getTimelineById], [getPostById], [getStatsById],
    [getCommentById] and [getAttachmentById]. *)
Definition getModelById {P} (m : modelDef) (modelName id : string) (params : P)
  : M (option (instance P)) :=
  let* attrs := findRecordById modelName id in
  match attrs with
  | None => ret None
  | Some h => ret (Some (initObjectWith m (Some (ObjFields h)) (JStr id) params))
  end.

(** The shape of [getTimelinesByIds], [getPostsByIds], [getStatsByIds],
    [getCommentsByIds] and [getAttachmentsByIds]. *)
Definition getModelsByIds {P} (m : modelDef) (modelName : string) (ids : list string)
    (params : P) : M (list (instance P)) :=
  let* responses := findRecordsByIds modelName ids in
  let objects := instancesOfReplies m ids params responses in
  ret objects.

Definition getTimelineById {P} (id : string) (params : P) := getModelById Timeline "timeline" id params.
Definition getTimelinesByIds {P} (ids : list string) (params : P) :=
  getModelsByIds Timeline "timeline" ids params.
Definition getPostById {P} (id : string) (params : P) := getModelById Post "post" id params.
Definition getPostsByIds {P} (ids : list string) (params : P) :=
  getModelsByIds Post "post" ids params.
Definition getStatsById {P} (id : string) (params : P) := getModelById Stats "stats" id params.
Definition getStatsByIds {P} (ids : list string) (params : P) :=
  getModelsByIds Stats "stats" ids params.
Definition getCommentById {P} (id : string) (params : P) := getModelById Comment "comment" id params.
Definition getCommentsByIds {P} (ids : list string) (params : P) :=
  getModelsByIds Comment "comment" ids params.
Definition getAttachmentById {P} (id : string) (params : P) :=
  getModelById Attachment "attachment" id params.
Definition getAttachmentsByIds {P} (ids : list string) (params : P) :=
  getModelsByIds Attachment "attachment" ids params.

Definition updatePost (postId : string) (payload : fields) : M unit :=
  let* key := pure (mkKey [JStr "post"; JStr postId]) in
  _updateRecord key payload.

Definition setPostUpdatedAt (postId time : string) : M unit :=
  let payload : fields := {[ "updatedAt" := time ]} in
  let* key := pure (mkKey [JStr "post"; JStr postId]) in
  _updateRecord key payload.

Definition deletePost (postId : string) : M Z :=
  let* key := pure (mkKey [JStr "post"; JStr postId]) in
  _deleteRecord key.

Definition updateComment (commentId : string) (payload : fields) : M unit :=
  let* key := pure (mkKey [JStr "comment"; JStr commentId]) in
  _updateRecord key payload.

Definition deleteComment (commentId : string) : M Z :=
  let* key := pure (mkKey [JStr "comment"; JStr commentId]) in
  _deleteRecord key.

Definition updateAttachment (attachmentId : string) (payload : fields) : M unit :=
  let* key := pure (mkKey [JStr "attachment"; JStr attachmentId]) in
  _updateRecord key payload.

Definition setAttachmentPostId (attachmentId postId : string) : M unit :=
  let payload : fields := {[ "postId" := postId ]} in
  let* key := pure (mkKey [JStr "attachment"; JStr attachmentId]) in
  _updateRecord key payload.

Definition createUserStats (userId : string) (payload : fields) : M unit :=
  let* key := pure (mkKey [JStr "stats"; JStr userId]) in
  _updateRecord key payload.

Definition existsUser (userId : string) : M Z :=
  let* key := pure (mkKey [JStr "user"; JStr userId]) in
  _existsRecord key.



(** ** DbAdapter: accounts by index *)

Definition findUserByAttributeIndex (attribute value : string) : M (option string) :=
  let* key := pure (mkKey [JStr attribute; JStr value; JStr "uid"]) in
  _getIndexValue key.

Definition dropUserEmailIndex (email : string) : M Z :=
  let* key := pure (mkKey [JStr "email"; JStr (_normalizeUserEmail email); JStr "uid"]) in
  _deleteRecord key.

Definition createUserResetPasswordToken (userId token : string) : M unit :=
  let* key := pure (mkKey [JStr "reset"; JStr token; JStr "uid"]) in
  _setIndexValue key userId.

Definition deleteUserResetPasswordToken (token : string) : M Z :=
  let* key := pure (mkKey [JStr "reset"; JStr token; JStr "uid"]) in
  _deleteRecord key.

Section AccountsByIndex.

(** The class hierarchy of ['../models'], as in [getUserById]. *)
Variable derives : classDef → classDef → bool.

Definition getUserByUsername (username : string) : M (option object) :=
  let* feed := getFeedOwnerByUsername username in
  match feed with
  | None => ret None
  | Some f =>
      if negb (instanceOf derives f User)
      then throw (Expected "User" (class_name (class_of f)))
      else ret (Some f)
  end.

Definition getGroupByUsername (username : string) : M (option object) :=
  let* feed := getFeedOwnerByUsername username in
  match feed with
  | None => ret None
  | Some f =>
      if negb (instanceOf derives f Group)
      then throw (Expected "Group" (class_name (class_of f)))
      else ret (Some f)
  end.

Definition getUserByResetToken (token : string) : M (option object) :=
  let* uid := findUserByAttributeIndex "reset" token in
  match uid with
  | None => ret None
  | Some u => getUserById derives u
  end.

Definition getUserByEmail (email : string) : M (option object) :=
  let* uid := findUserByAttributeIndex "email" (toLowerCase email) in
  match uid with
  | None => ret None
  | Some u => getUserById derives u
  end.

End AccountsByIndex.

(** ** DbAdapter: sorted-set, set and list methods *)

Definition _getSortedSetElementsCount (key : string) : M Z := zcardAsync key.
Definition _getSortedSetElements (key : string) (fromIndex toIndex : Z)
  : M (list string) :=
  zrevrangeAsync key fromIndex toIndex.
Definition _getAllSortedSetElements (key : string) : M (list string) :=
  _getSortedSetElements key 0 (-1).
Definition _removeElementFromSortedSet (key element : string) : M Z :=
  zremAsync key element.

Definition _getSetElementsCount (key : string) : M Z := scardAsync key.
Definition _getSetElements (key : string) : M (list string) := smembersAsync key.
Definition _addElementToSet (key : string) (element : list string) : M Z :=
  saddAsync key element.
Definition _removeElementFromSet (key element : string) : M Z := sremAsync key element.

Definition _getListElementsCount (key : string) : M Z := llenAsync key.
Definition _getListElementsRange (key : string) (fromIndex toIndex : Z)
  : M (list string) :=
  lrangeAsync key fromIndex toIndex.
Definition _getAllListElements (key : string) : M (list string) :=
  _getListElementsRange key 0 (-1).
Definition _addElementToList (key element : string) : M Z := rpushAsync key element.
Definition _removeOneElementFromList (key element : string) : M Z :=
  lremAsync key 1 element.
Definition _removeAllElementsEqualToFromList (key element : string) : M Z :=
  lremAsync key 0 element.

(** ** DbAdapter: likes *)

Definition getPostLikesCount (postId : string) : M Z :=
  let* key := pure (mkKey [JStr "post"; JStr postId; JStr "likes"]) in
  _getSortedSetElementsCount key.

Definition getPostLikesRange (postId : string) (fromIndex toIndex : Z) : M (list string) :=
  let* key := pure (mkKey [JStr "post"; JStr postId; JStr "likes"]) in
  _getSortedSetElements key fromIndex toIndex.

Definition getUserPostLikedTime (score_value : Z → jsval) (userId postId : string)
  : M jsval :=
  let* key := pure (mkKey [JStr "post"; JStr postId; JStr "likes"]) in
  _getSortedSetElementScore score_value key userId.

Definition removeUserPostLike (postId userId : string) : M Z :=
  let* key := pure (mkKey [JStr "post"; JStr postId; JStr "likes"]) in
  _removeElementFromSortedSet key userId.

Definition deletePostLikes (postId : string) : M Z :=
  let* key := pure (mkKey [JStr "post"; JStr postId; JStr "likes"]) in
  _deleteRecord key.

(** ** DbAdapter: usages of a post and its destinations *)

Definition createPostUsageInTimeline (postId timelineId : string) : M Z :=
  let* key := pure (mkKey [JStr "post"; JStr postId; JStr "timelines"]) in
  _addElementToSet key [timelineId].

Definition getPostUsagesInTimelinesCount (postId : string) : M Z :=
  let* key := pure (mkKey [JStr "post"; JStr postId; JStr "timelines"]) in
  _getSetElementsCount key.

Definition getPostUsagesInTimelines (postId : string) : M (list string) :=
  let* key := pure (mkKey [JStr "post"; JStr postId; JStr "timelines"]) in
  _getSetElements key.

Definition deletePostUsageInTimeline (postId timelineId : string) : M Z :=
  let* key := pure (mkKey [JStr "post"; JStr postId; JStr "timelines"]) in
  _removeElementFromSet key timelineId.

Definition deletePostUsagesInTimelineIndex (postId : string) : M Z :=
  let* key := pure (mkKey [JStr "post"; JStr postId; JStr "timelines"]) in
  _deleteRecord key.

Definition getPostPostedToIds (postId : string) : M (list string) :=
  let* key := pure (mkKey [JStr "post"; JStr postId; JStr "to"]) in
  _getSetElements key.

Definition createPostPostedTo (postId : string) (timelineIds : list string) : M Z :=
  let* key := pure (mkKey [JStr "post"; JStr postId; JStr "to"]) in
  _addElementToSet key timelineIds.

Definition deletePostPostedTo (postId : string) : M Z :=
  let* key := pure (mkKey [JStr "post"; JStr postId; JStr "to"]) in
  _deleteRecord key.

(** ** DbAdapter: comments and attachments of a post *)

Definition getPostCommentsCount (postId : string) : M Z :=
  let* key := pure (mkKey [JStr "post"; JStr postId; JStr "comments"]) in
  _getListElementsCount key.

Definition removeCommentFromPost (postId commentId : string) : M Z :=
  let* key := pure (mkKey [JStr "post"; JStr postId; JStr "comments"]) in
  _removeOneElementFromList key commentId.

Definition getPostCommentsRange (postId : string) (fromIndex toIndex : Z)
  : M (list string) :=
  let* key := pure (mkKey [JStr "post"; JStr postId; JStr "comments"]) in
  _getListElementsRange key fromIndex toIndex.

Definition addCommentToPost (postId commentId : string) : M Z :=
  let* key := pure (mkKey [JStr "post"; JStr postId; JStr "comments"]) in
  _addElementToList key commentId.

Definition deletePostComments (postId : string) : M Z :=
  let* key := pure (mkKey [JStr "post"; JStr postId; JStr "comments"]) in
  _deleteRecord key.

Definition getPostAttachments (postId : string) : M (list string) :=
  let* key := pure (mkKey [JStr "post"; JStr postId; JStr "attachments"]) in
  _getAllListElements key.

Definition addAttachmentToPost (postId attachmentId : string) : M Z :=
  let* key := pure (mkKey [JStr "post"; JStr postId; JStr "attachments"]) in
  _addElementToList key attachmentId.

Definition removeAttachmentsFromPost (postId attachmentId : string) : M Z :=
  let* key := pure (mkKey [JStr "post"; JStr postId; JStr "attachments"]) in
  _removeAllElementsEqualToFromList key attachmentId.

(** ** DbAdapter: requests, subscriptions, bans, administrators *)

Definition getUserSubscriptionRequestsIds (currentUserId : string) : M (list string) :=
  let* key := pure (mkKey [JStr "user"; JStr currentUserId; JStr "requests"]) in
  _getAllSortedSetElements key.

Definition createUserSubscriptionRequest (currentUserId : string) (currentTime : Z)
    (followedUserId : string) : M Z :=
  let* key := pure (mkKey [JStr "user"; JStr followedUserId; JStr "requests"]) in
  _addElementToSortedSet key currentTime currentUserId.

Definition deleteUserSubscriptionRequest (currentUserId followerUserId : string) : M Z :=
  let* key := pure (mkKey [JStr "user"; JStr currentUserId; JStr "requests"]) in
  _removeElementFromSortedSet key followerUserId.

Definition getUserSubscriptionPendingRequestsIds (currentUserId : string)
  : M (list string) :=
  let* key := pure (mkKey [JStr "user"; JStr currentUserId; JStr "pending"]) in
  _getAllSortedSetElements key.

Definition createUserSubscriptionPendingRequest (currentUserId : string)
    (currentTime : Z) (followedUserId : string) : M Z :=
  let* key := pure (mkKey [JStr "user"; JStr currentUserId; JStr "pending"]) in
  _addElementToSortedSet key currentTime followedUserId.

Definition deleteUserSubscriptionPendingRequest (currentUserId followerUserId : string)
  : M Z :=
  let* key := pure (mkKey [JStr "user"; JStr followerUserId; JStr "pending"]) in
  _removeElementFromSortedSet key currentUserId.

Definition getUserSubscriptionsIds (userId : string) : M (list string) :=
  let* key := pure (mkKey [JStr "user"; JStr userId; JStr "subscriptions"]) in
  _getAllSortedSetElements key.

Definition createUserSubscription (currentUserId : string) (currentTime : Z)
    (timelineId : string) : M Z :=
  let* key := pure (mkKey [JStr "user"; JStr currentUserId; JStr "subscriptions"]) in
  _addElementToSortedSet key currentTime timelineId.

Definition deleteUserSubscription (currentUserId timelineId : string) : M Z :=
  let* key := pure (mkKey [JStr "user"; JStr currentUserId; JStr "subscriptions"]) in
  _removeElementFromSortedSet key timelineId.

Definition getUserBansIds (userId : string) : M (list string) :=
  let* key := pure (mkKey [JStr "user"; JStr userId; JStr "bans"]) in
  _getAllSortedSetElements key.

(** [new Date().getTime()] is an input of the methods that read the clock. *)
Definition createUserBan (now : Z) (currentUserId bannedUserId : string) : M Z :=
  let* key := pure (mkKey [JStr "user"; JStr currentUserId; JStr "bans"]) in
  _addElementToSortedSet key now bannedUserId.

Definition deleteUserBan (currentUserId bannedUserId : string) : M Z :=
  let* key := pure (mkKey [JStr "user"; JStr currentUserId; JStr "bans"]) in
  _removeElementFromSortedSet key bannedUserId.

Definition getGroupAdministratorsIds (groupId : string) : M (list string) :=
  let* key := pure (mkKey [JStr "user"; JStr groupId; JStr "administrators"]) in
  _getAllSortedSetElements key.

Definition addAdministratorToGroup (now : Z) (groupId adminId : string) : M Z :=
  let* key := pure (mkKey [JStr "user"; JStr groupId; JStr "administrators"]) in
  _addElementToSortedSet key now adminId.

Definition removeAdministratorFromGroup (groupId adminId : string) : M Z :=
  let* key := pure (mkKey [JStr "user"; JStr groupId; JStr "administrators"]) in
  _removeElementFromSortedSet key adminId.

(** ** DbAdapter: posts and subscribers of a timeline *)

Definition getTimelinePostsCount (timelineId : string) : M Z :=
  let* key := pure (mkKey [JStr "timeline"; JStr timelineId; JStr "posts"]) in
  _getSortedSetElementsCount key.

Definition getTimelinePostsRange (timelineId : string) (startIndex finishIndex : Z)
  : M (list string) :=
  let* key := pure (mkKey [JStr "timeline"; JStr timelineId; JStr "posts"]) in
  _getSortedSetElements key startIndex finishIndex.

Definition getTimelinePostsInTimeInterval (timelineId : string)
    (timeIntervalStart timeIntervalEnd : Z) : M (list string) :=
  let* key := pure (mkKey [JStr "timeline"; JStr timelineId; JStr "posts"]) in
  zrevrangebyscoreAsync key timeIntervalStart timeIntervalEnd.

Definition removePostFromTimeline (timelineId postId : string) : M Z :=
  let* key := pure (mkKey [JStr "timeline"; JStr timelineId; JStr "posts"]) in
  _removeElementFromSortedSet key postId.

Definition getTimelineSubscribers (timelineId : string) : M (list string) :=
  let* key := pure (mkKey [JStr "timeline"; JStr timelineId; JStr "subscribers"]) in
  _getAllSortedSetElements key.

Definition addTimelineSubscriber (timelineId : string) (currentTime : Z)
    (currentUserId : string) : M Z :=
  let* key := pure (mkKey [JStr "timeline"; JStr timelineId; JStr "subscribers"]) in
  _addElementToSortedSet key currentTime currentUserId.

Definition removeTimelineSubscriber (timelineId currentUserId : string) : M Z :=
  let* key := pure (mkKey [JStr "timeline"; JStr timelineId; JStr "subscribers"]) in
  _removeElementFromSortedSet key currentUserId.

(** ** DbAdapter: leaderboards *)

Definition addUserLikesStats (userId : string) (likes : Z) : M Z :=
  let* key := pure (mkKey [JStr "stats"; JStr "likes"]) in
  _addElementToSortedSet key likes userId.

Definition addUserPostsStats (userId : string) (posts : Z) : M Z :=
  let* key := pure (mkKey [JStr "stats"; JStr "posts"]) in
  _addElementToSortedSet key posts userId.

Definition addUserCommentsStats (userId : string) (comments : Z) : M Z :=
  let* key := pure (mkKey [JStr "stats"; JStr "comments"]) in
  _addElementToSortedSet key comments userId.

Definition addUserSubscribersStats (userId : string) (subscribers : Z) : M Z :=
  let* key := pure (mkKey [JStr "stats"; JStr "subscribers"]) in
  _addElementToSortedSet key subscribers userId.

Definition addUserSubscriptionsStats (userId : string) (subscriptions : Z) : M Z :=
  let* key := pure (mkKey [JStr "stats"; JStr "subscriptions"]) in
  _addElementToSortedSet key subscriptions userId.

Definition changeUserStats (score_value : Z → jsval) (userId property : string)
    (value : Z) : M jsval :=
  let* key := pure (mkKey [JStr "stats"; JStr property]) in
  zincrbyAsync score_value key value userId.

(** ** Vocabulary of the further statements *)

(** A text without the delimiter of keys. *)
Fixpoint no_sep (s : string) : bool :=
  match s with
  | EmptyString => true
  | String c s' => negb (Ascii.eqb c ":") && no_sep s'
  end.

(** An update that merges its payload into the record at [key], whatever
    the record held and whether it existed. *)
Definition merges_into (update : fields → M unit) (key : string) : Prop :=
  ∀ (payload h : fields) (s : store),
    payload ≠ ∅ → record_at s key = Ok h →
    update payload s = (<[key := VHash (payload ∪ h)]> s, Ok tt).

(** A creation whose id, once created, is taken: a second creation with
    the same id, whatever its payload, rejects with "Already exists" and
    writes nothing. *)
Definition taken_once_created (create : fields → M string) (id : string) : Prop :=
  ∀ (payload payload' : fields) (s s' : store) (id' : string),
    create payload s = (s', Ok id') →
    id' = id ∧ create payload' s' = (s', Err AlreadyExists).

(** What a batch lookup of models answers for the ids [ids] on the store
    [s]: one instance per id, in the order of the ids, built from [null]
    for an id without a record and from the fields of the record
    otherwise. *)
Definition one_instance_per_id {P} (m : modelDef) (modelName : string)
    (ids : list string) (params : P) (s : store)
    (outcome : store * result (list (instance P))) : Prop :=
  ∃ objects : list (instance P),
    outcome = (s, Ok objects) ∧
    length objects = length ids ∧
    ∀ (i : nat) (id : string),
      ids !! i = Some id →
      ∃ o, objects !! i = Some o ∧
           model_of o = m ∧ spread_id o = JStr id ∧ spread_params o = params ∧
           (s !! (modelName +:+ ":" +:+ id) = None → spread_attrs o = None) ∧
           (∀ h, s !! (modelName +:+ ":" +:+ id) = Some (VHash h) →
                 spread_attrs o = Some (ObjFields h)).

(** What a range method answers on the sorted set [z]: for the indices 0
    and -1 every member once, from the highest rank to the lowest, and
    for the indices of a page its part of that list, which holds at most
    [stop - start + 1] members. *)
Definition ranked_pages (z : zset) (s : store)
    (range : Z → Z → M (list string)) : Prop :=
  ∃ entries : list (string * Z),
    range 0 (-1) s = (s, Ok entries.*1) ∧
    StronglySorted (flip rank_le) entries ∧
    NoDup entries.*1 ∧
    (∀ member score, (member, score) ∈ entries ↔ z !! member = Some score) ∧
    ∀ start stop : Z,
      (0 ≤ start ≤ stop)%Z →
      ∃ page, range start stop s = (s, Ok page) ∧
              page = take (Z.to_nat (stop - start + 1)) (drop (Z.to_nat start) entries.*1) ∧
              (Z.of_nat (length page) ≤ stop - start + 1)%Z.

(** ** Further example data *)

Definition hello : fields := {[ "body" := "hello"; "createdAt" := "1" ]}.
Definition bye : fields := {[ "body" := "bye" ]}.

(** The store after a post has been created. *)
Definition posted : store := after (createPost "p1" hello) ∅.

Definition bob : fields := {[ "username" := "bob"; "email" := "Bob@Example.org" ]}.

(** The store after a comment has been added to a post, then another,
    then the first one again. *)
Definition commented : store :=
  after (addCommentToPost "p1" "c1")
    (after (addCommentToPost "p1" "c2")
       (after (addCommentToPost "p1" "c1") ∅)).


(** * Properties *)

(** ** Auxiliary facts *)

(** Keys are compared after their literal prefixes are computed. *)
Lemma append_String (c : ascii) (a b : string) : String c a +:+ b = String c (a +:+ b).
Proof. reflexivity. Qed.

Lemma append_empty (b : string) : "" +:+ b = b.
Proof. reflexivity. Qed.

Ltac norm_keys :=
  unfold sep in *;
  repeat (progress (rewrite ?append_String, ?append_empty in * )).

(** Unfolding of the monad of adapter methods. *)
Ltac run :=
  unfold bind, pure, ret, throw, mkKey; simpl.

Lemma forallb_isString_strings (ss : list string) :
  forallb isString (JStr <$> ss) = true.
Proof. induction ss as [|x ss IH]; [reflexivity | exact IH]. Qed.

Lemma segment_strings (ss : list string) : segment <$> (JStr <$> ss) = ss.
Proof. induction ss as [|x ss IH]; [reflexivity | by rewrite !fmap_cons, IH]. Qed.

Lemma forallb_isString_false (keys : list jsval) :
  forallb isString keys = false ↔ ∃ k, k ∈ keys ∧ isString k = false.
Proof.
  induction keys as [|k keys IH]; simpl.
  - split; [discriminate | intros (k & Hk & _); by apply elem_of_nil in Hk].
  - rewrite andb_false_iff, IH. split.
    + intros [Hk | (k' & Hin & Hk')].
      * exists k. split; [left | done].
      * exists k'. split; [by right | done].
    + intros (k' & Hin & Hk'). apply elem_of_cons in Hin as [-> | Hin].
      * by left.
      * right. by exists k'.
Qed.

Lemma map_from_total {A B} (f : A → nat → result B) (g : A → B) (l : list A) :
  (∀ x i, f x i = Ok (g x)) → ∀ i, map_from i f l = Ok (g <$> l).
Proof.
  intros Hf. induction l as [|x l IH]; intros i; simpl; [done|].
  by rewrite Hf, IH.
Qed.

Lemma findRecordsByIds_replies (modelName : string) (modelIds : list string) (s : store) :
  findRecordsByIds modelName modelIds s =
  (s, Ok ((λ id, reply_of s (HGETALL (modelName +:+ ":" +:+ id))) <$> modelIds)).
Proof.
  unfold findRecordsByIds, bind, pure, js_map, batch_execAsync.
  rewrite (map_from_total _ (λ id, modelName +:+ ":" +:+ id)) by done.
  by rewrite <- !list_fmap_compose.
Qed.

(** Reading the type of a [null] reply ends [responses.map] with a
    [TypeError], whatever stands at the other positions. *)
Lemma feedOwners_null_reply (ids : list string) (responses : list (option jsobj)) :
  None ∈ responses → ∀ i, map_from i (feedOwnerOfReply ids) responses = Err TypeError.
Proof.
  induction responses as [|r rs IH]; intros Hin i.
  - by apply elem_of_nil in Hin.
  - simpl. destruct r as [a|]; [|done].
    apply elem_of_cons in Hin as [? | Hin]; [done|].
    simpl. rewrite (IH Hin). by case_bool_decide.
Qed.

(** ** C8: the key composer *)

(** C8.  [mkKey] joins its segments with [":"] when every segment is a
    string, and it throws ['keys should be strings'] exactly when some
    segment is not a string.  It is a function of the segments alone, and a
    method that composes its key from a list with such a segment fails with
    that error and leaves the store as it was, whatever it would have done
    with the key. *)
Theorem mkKey_joins_or_rejects :
  (∀ ss : list string, mkKey (JStr <$> ss) = Ok (String.concat ":" ss)) ∧
  (∀ keys : list jsval,
     (∀ k, k ∈ keys → isString k = true) →
     mkKey keys = Ok (String.concat ":" (segment <$> keys))) ∧
  (∀ (keys : list jsval) (e : error),
     mkKey keys = Err e ↔
     e = KeysShouldBeStrings ∧ ∃ k, k ∈ keys ∧ isString k = false) ∧
  (∀ (A : Type) (keys : list jsval) (method : string → M A) (s : store),
     (∃ k, k ∈ keys ∧ isString k = false) →
     (let* key := pure (mkKey keys) in method key) s = (s, Err KeysShouldBeStrings)).
Proof.
  split; [|split; [|split]].
  - intros ss. unfold mkKey.
    by rewrite forallb_isString_strings, segment_strings.
  - intros keys Hall. unfold mkKey.
    destruct (forallb isString keys) eqn:E; [done|].
    apply forallb_isString_false in E as (k & Hin & Hk).
    rewrite (Hall k Hin) in Hk. discriminate.
  - intros keys e. unfold mkKey. split.
    + destruct (forallb isString keys) eqn:E; [done|].
      intros [= <-]. split; [done | by apply forallb_isString_false].
    + intros [-> Hex]. apply forallb_isString_false in Hex. by rewrite Hex.
  - intros A keys method s Hex. unfold bind, pure, mkKey.
    apply forallb_isString_false in Hex. by rewrite Hex.
Qed.

(** ** C4: batch reads *)

(** C4.  For every entity kind and every list of ids, [findRecordsByIds]
    resolves, without touching the store, with one reply per id in the
    order of the ids: [null] at the position of an id whose key is absent
    and the fields of the record at the position of an id that has one. *)
Theorem findRecordsByIds_one_reply_per_id
    (s : store) (modelName : string) (modelIds : list string) :
  ∃ replies : list (option jsobj),
    findRecordsByIds modelName modelIds s = (s, Ok replies) ∧
    length replies = length modelIds ∧
    ∀ (i : nat) (id : string),
      modelIds !! i = Some id →
      (s !! (modelName +:+ ":" +:+ id) = None → replies !! i = Some None) ∧
      (∀ h, s !! (modelName +:+ ":" +:+ id) = Some (VHash h) →
            replies !! i = Some (Some (ObjFields h))).
Proof.
  eexists. split; [apply findRecordsByIds_replies|].
  split; [by rewrite length_fmap|].
  intros i id Hi. rewrite list_lookup_fmap, Hi. simpl. unfold hgetall.
  split.
  - by intros ->.
  - by intros h ->.
Qed.

(** ** C9: batch hydration of accounts *)

(** C9.  When some id of the list has no account record, the batch read
    still resolves with one reply per id, with [null] at the position of
    every such id, but [getFeedOwnersByIds] rejects with the [TypeError] of
    reading [type] off that [null], and so does [getUsersByIds], which
    calls it, whatever the class hierarchy is. *)
Theorem getFeedOwnersByIds_absent_id_throws
    (derives : classDef → classDef → bool)
    (s : store) (ids : list string) (id : string) :
  id ∈ ids →
  s !! ("user:" +:+ id) = None →
  (∃ replies : list (option jsobj),
     findRecordsByIds "user" ids s = (s, Ok replies) ∧
     length replies = length ids ∧
     ∀ (i : nat) (id' : string),
       ids !! i = Some id' → s !! ("user:" +:+ id') = None →
       replies !! i = Some None) ∧
  getFeedOwnersByIds ids s = (s, Err TypeError) ∧
  getUsersByIds derives ids s = (s, Err TypeError).
Proof.
  intros Hin Habsent.
  assert (Hnull : None ∈ (λ id, reply_of s (HGETALL ("user" +:+ ":" +:+ id))) <$> ids).
  { apply list_elem_of_fmap. exists id. split; [|done].
    simpl. unfold hgetall.
    change ("user" +:+ ":" +:+ id) with ("user:" +:+ id). by rewrite Habsent. }
  assert (Hfeed : getFeedOwnersByIds ids s = (s, Err TypeError)).
  { unfold getFeedOwnersByIds, bind. rewrite findRecordsByIds_replies.
    unfold pure, js_map. by rewrite feedOwners_null_reply. }
  split; [|split; [done|]].
  - eexists. split; [apply findRecordsByIds_replies|].
    split; [by rewrite length_fmap|].
    intros i id' Hi Hnone. rewrite list_lookup_fmap, Hi. simpl. unfold hgetall.
    change ("user" +:+ ":" +:+ id') with ("user:" +:+ id'). by rewrite Hnone.
  - unfold getUsersByIds, bind. by rewrite Hfeed.
Qed.

(** ** C7: resolving an account by id *)

(** C7.  [getUserById] and [getGroupById] resolve with [null] when the id
    has no account record.  When the record's [type] is ["group"] and
    [Group] does not derive from [User], [getUserById] rejects with
    "Expected User, got Group"; when the [type] is anything else and [User]
    does not derive from [Group], [getGroupById] rejects with "Expected
    Group, got User".  The other lookup resolves with the account in each
    case, an instance of a class being an instance of that class. *)
Theorem getUserById_getGroupById_variant
    (derives : classDef → classDef → bool) (s : store) (id : string) :
  (s !! ("user:" +:+ id) = None →
     getUserById derives id s = (s, Ok None) ∧
     getGroupById derives id s = (s, Ok None)) ∧
  (∀ h : fields,
     s !! ("user:" +:+ id) = Some (VHash h) → h !! "type" = Some "group" →
     (derives Group User = false →
      getUserById derives id s = (s, Err (Expected "User" "Group"))) ∧
     (derives Group Group = true →
      getGroupById derives id s =
      (s, Ok (Some (initObject Group (ObjFields h) (JStr id)))))) ∧
  (∀ h : fields,
     s !! ("user:" +:+ id) = Some (VHash h) → h !! "type" ≠ Some "group" →
     (derives User Group = false →
      getGroupById derives id s = (s, Err (Expected "Group" "User"))) ∧
     (derives User User = true →
      getUserById derives id s =
      (s, Ok (Some (initObject User (ObjFields h) (JStr id)))))).
Proof.
  unfold getUserById, getGroupById, instanceOf, getFeedOwnerById, _getRecord,
    hgetallAsync, hgetall, bind, pure, ret, throw; simpl.
  split; [|split].
  - intros Hkey. norm_keys. by rewrite Hkey.
  - intros h Hkey Htype. norm_keys. rewrite Hkey.
    rewrite bool_decide_eq_true_2 by done. simpl.
    split; by intros ->.
  - intros h Hkey Htype. norm_keys. rewrite Hkey.
    rewrite bool_decide_eq_false_2 by done. simpl.
    split; by intros ->.
Qed.

(** The mismatch depends on the class hierarchy: were [Group] derived from
    [User], [getUserById] would resolve with the group. *)
Lemma getUserById_of_derived_group
    (derives : classDef → classDef → bool) (s : store) (id : string) (h : fields) :
  s !! ("user:" +:+ id) = Some (VHash h) → h !! "type" = Some "group" →
  derives Group User = true →
  getUserById derives id s =
  (s, Ok (Some (initObject Group (ObjFields h) (JStr id)))).
Proof.
  unfold getUserById, instanceOf, getFeedOwnerById, _getRecord,
    hgetallAsync, hgetall, bind, pure, ret, throw; simpl.
  intros Hkey Htype Hderives. norm_keys. rewrite Hkey.
  rewrite bool_decide_eq_true_2 by done. simpl. by rewrite Hderives.
Qed.

(** ** C6: presence tests on scores *)

Lemma score_present_answer (s : store) (score : option Z) :
  presence_answer s score (s, Ok (score_present (score_reply JNum score))).
Proof.
  exists (score_present (score_reply JNum score)). split; [done|].
  destruct score as [n|]; simpl.
  - unfold score_present, js_and, js_ge0. simpl.
    destruct (Z.eqb_spec n 0) as [->|Hn]; simpl.
    + repeat split; try done.
      * intros (n & [= <-] & ?). lia.
      * intros n [= <-] ?. lia.
    + destruct (Z.leb_spec 0 n); simpl.
      * repeat split; try done.
        -- intros _. exists n. split; [done | lia].
        -- intros m [= <-] ?. lia.
        -- intros [= ->]. done.
      * repeat split; try done.
        -- intros (m & [= <-] & ?). lia.
        -- intros [= ->]. lia.
  - repeat split; try done. intros (n & ? & _). done.
Qed.

Lemma score_reply_number (score_value : Z → jsval) (score : option Z) :
  (∀ n, score_value n = JNum n) →
  score_reply score_value score = score_reply JNum score.
Proof. intros Hnumber. destruct score; [apply Hnumber | done]. Qed.

(** Reading the decimal digits of a number gives the number back. *)
Lemma digits_of_uint_acc (d : Decimal.uint) (acc : positive) :
  digits (Z.pos acc) (DecimalString.NilEmpty.string_of_uint d)
  = Some (Z.pos (Pos.of_uint_acc d acc)).
Proof.
  revert acc. induction d as [|d IH|d IH|d IH|d IH|d IH|d IH|d IH|d IH|d IH|d IH];
    intros acc; [reflexivity|..];
    cbn [DecimalString.NilEmpty.string_of_uint digits Pos.of_uint_acc];
    change (digit _) with (Some 0) || change (digit _) with (Some 1)
    || change (digit _) with (Some 2) || change (digit _) with (Some 3)
    || change (digit _) with (Some 4) || change (digit _) with (Some 5)
    || change (digit _) with (Some 6) || change (digit _) with (Some 7)
    || change (digit _) with (Some 8) || change (digit _) with (Some 9);
    cbv iota beta; rewrite <- IH; f_equal; lia.
Qed.

Lemma digits_of_uint (d : Decimal.uint) :
  digits 0 (DecimalString.NilEmpty.string_of_uint d) = Some (Z.of_N (Pos.of_uint d)).
Proof.
  induction d as [|d IH|d IH|d IH|d IH|d IH|d IH|d IH|d IH|d IH|d IH];
    [reflexivity | exact IH |..];
    cbn [DecimalString.NilEmpty.string_of_uint digits Pos.of_uint];
    change (digit _) with (Some 1)
    || change (digit _) with (Some 2) || change (digit _) with (Some 3)
    || change (digit _) with (Some 4) || change (digit _) with (Some 5)
    || change (digit _) with (Some 6) || change (digit _) with (Some 7)
    || change (digit _) with (Some 8) || change (digit _) with (Some 9);
    cbv iota beta; apply (digits_of_uint_acc d).
Qed.

Lemma string_of_uint_digits (d : Decimal.uint) :
  d ≠ Decimal.Nil →
  ∃ c rest, DecimalString.NilEmpty.string_of_uint d = String c rest ∧
            c ≠ "-"%char ∧ c ≠ "+"%char.
Proof.
  destruct d; [done|..]; intros _; simpl; eexists _, _;
    (split; [reflexivity | split; discriminate]).
Qed.

(** The text of an integer reads back as that integer, and is not
    empty. *)
Lemma string_to_number_decimal (n : Z) :
  string_to_number (decimal n) = Some n ∧ decimal n ≠ "".
Proof.
  destruct n as [|p|p]; [split; [reflexivity | discriminate]|..];
    unfold decimal; cbn [Z.to_int DecimalString.NilZero.string_of_int];
    pose proof (DecimalPos.Unsigned.to_uint_nonnil p) as Hnil;
    pose proof (DecimalPos.Unsigned.of_to p) as Hback;
    pose proof (digits_of_uint (Pos.to_uint p)) as Hdigits;
    rewrite Hback in Hdigits;
    destruct (string_of_uint_digits _ Hnil) as (c & rest & Htext & Hminus & Hplus);
    assert (Hzero : DecimalString.NilZero.string_of_uint (Pos.to_uint p)
                    = DecimalString.NilEmpty.string_of_uint (Pos.to_uint p))
      by (by destruct (Pos.to_uint p));
    rewrite Hzero, Htext in *.
  - split; [|discriminate].
    unfold string_to_number.
    destruct (Ascii.eqb_spec c "-") as [->|_]; [done|].
    destruct (Ascii.eqb_spec c "+") as [->|_]; [done|].
    destruct c as [[] [] [] [] [] [] [] []]; try exact Hdigits; done.
  - split; [|discriminate].
    cbn [string_to_number]. by rewrite Hdigits.
Qed.

(** [score && score >= 0] on the text of a score: the text is truthy,
    so the answer is that of the comparison. *)
Lemma score_present_text (n : Z) :
  score_present (text_reply n) = JBool (0 <=? n)%Z.
Proof.
  destruct (string_to_number_decimal n) as [Hread Hne].
  unfold score_present, js_and, js_ge0, text_reply, truthy, to_number.
  rewrite Hread.
  destruct (String.eqb_spec (decimal n) "") as [Hempty|_]; [done|reflexivity].
Qed.

Lemma score_present_text_answer (s : store) (score : option Z) :
  presence_answer_of_text s score (s, Ok (score_present (score_reply text_reply score))).
Proof.
  exists (score_present (score_reply text_reply score)). split; [reflexivity|].
  destruct score as [n|]; cbn [score_reply].
  - rewrite score_present_text.
    destruct (Z.leb_spec 0 n) as [Hn|Hn]; cbn [truthy].
    + split; [|split; [|split; [|split]]]; try done.
      * split; [intros _; by exists n | done].
      * intros m [= <-] ?. lia.
    + split; [|split; [|split; [|split]]]; try done.
      * split; [done | intros (m & [= <-] & ?); lia].
      * intros [= ->]. lia.
  - split; [|split; [|split; [|split]]]; try done.
    split; [done | intros (m & ? & _); done].
Qed.

(** What the three presence tests compute, whatever the client hands back
    for a score. *)
Lemma presence_tests_run (score_value : Z → jsval) (s : store) (a b : string) :
  (∀ z, zset_at s ("post:" +:+ b +:+ ":likes") = Ok z →
        hasUserLikedPost score_value a b s
        = (s, Ok (score_present (score_reply score_value (z !! a))))) ∧
  (∀ z, zset_at s ("timeline:" +:+ a +:+ ":posts") = Ok z →
        isPostPresentInTimeline score_value a b s
        = (s, Ok (score_present (score_reply score_value (z !! b))))) ∧
  (∀ z, zset_at s ("user:" +:+ b +:+ ":requests") = Ok z →
        isSubscriptionRequestPresent score_value a b s
        = (s, Ok (score_present (score_reply score_value (z !! a))))).
Proof.
  unfold hasUserLikedPost, isPostPresentInTimeline, isSubscriptionRequestPresent,
    _getSortedSetElementScore, zscoreAsync.
  run. norm_keys.
  split; [|split]; intros z ->; reflexivity.
Qed.

(** C6.  [hasUserLikedPost], [isPostPresentInTimeline] and
    [isSubscriptionRequestPresent] report the member as present exactly
    when the sorted set holds a score for it that is not negative, the
    score coming back as its decimal text: no score gives [null] and a
    negative score [false], both falsy, and the score zero gives [true].
    With a client that hands back scores as numbers the score zero gives
    the number 0 instead, and the member is reported as present exactly
    when its score is positive. *)
Theorem presence_tests_need_stored_nonnegative_score (s : store) (a b : string) :
  ((∀ z, zset_at s ("post:" +:+ b +:+ ":likes") = Ok z →
         presence_answer_of_text s (z !! a) (hasUserLikedPost text_reply a b s)) ∧
   (∀ z, zset_at s ("timeline:" +:+ a +:+ ":posts") = Ok z →
         presence_answer_of_text s (z !! b) (isPostPresentInTimeline text_reply a b s)) ∧
   (∀ z, zset_at s ("user:" +:+ b +:+ ":requests") = Ok z →
         presence_answer_of_text s (z !! a)
           (isSubscriptionRequestPresent text_reply a b s))) ∧
  (∀ score_value : Z → jsval,
     (∀ n, score_value n = JNum n) →
     (∀ z, zset_at s ("post:" +:+ b +:+ ":likes") = Ok z →
           presence_answer s (z !! a) (hasUserLikedPost score_value a b s)) ∧
     (∀ z, zset_at s ("timeline:" +:+ a +:+ ":posts") = Ok z →
           presence_answer s (z !! b) (isPostPresentInTimeline score_value a b s)) ∧
     (∀ z, zset_at s ("user:" +:+ b +:+ ":requests") = Ok z →
           presence_answer s (z !! a) (isSubscriptionRequestPresent score_value a b s))).
Proof.
  split.
  - destruct (presence_tests_run text_reply s a b) as (Hliked & Hposted & Hrequested).
    split; [|split]; intros z Hz.
    + rewrite (Hliked z Hz). apply score_present_text_answer.
    + rewrite (Hposted z Hz). apply score_present_text_answer.
    + rewrite (Hrequested z Hz). apply score_present_text_answer.
  - intros score_value Hnumber.
    destruct (presence_tests_run score_value s a b) as (Hliked & Hposted & Hrequested).
    split; [|split]; intros z Hz.
    + rewrite (Hliked z Hz), (score_reply_number _ _ Hnumber).
      apply score_present_answer.
    + rewrite (Hposted z Hz), (score_reply_number _ _ Hnumber).
      apply score_present_answer.
    + rewrite (Hrequested z Hz), (score_reply_number _ _ Hnumber).
      apply score_present_answer.
Qed.

(** C6, as first stated, fails: the like of carol at the time 0 comes
    back as the text ["0"], and [hasUserLikedPost] reports it as present;
    this is not the answer of a test that needs a positive score. *)
Lemma zero_score_is_reported_present :
  zset_at liked "post:P:likes" = Ok likes ∧
  likes !! "carol" = Some 0 ∧
  hasUserLikedPost text_reply "carol" "P" liked = (liked, Ok (JBool true)) ∧
  ¬ presence_answer liked (likes !! "carol")
      (hasUserLikedPost text_reply "carol" "P" liked).
Proof.
  assert (Hrun : hasUserLikedPost text_reply "carol" "P" liked
                 = (liked, Ok (JBool true))) by (vm_compute; reflexivity).
  split; [vm_compute; reflexivity|]. split; [vm_compute; reflexivity|].
  split; [exact Hrun|].
  rewrite Hrun. intros (v & [= <-] & [Hpositive _] & _).
  destruct (Hpositive eq_refl) as (n & Hn & Hlt).
  assert (Hzero : likes !! "carol" = Some 0) by (vm_compute; reflexivity).
  rewrite Hzero in Hn. injection Hn as <-. lia.
Qed.

(** The answer for the score zero depends on the reply being a number:
    with a client that hands back the score as the text ["0"], which is
    truthy, a like at time zero is reported as present. *)
Lemma hasUserLikedPost_zero_as_text
    (score_value : Z → jsval) (s : store) (userId postId : string) (z : zset) :
  score_value 0 = JStr "0" →
  zset_at s ("post:" +:+ postId +:+ ":likes") = Ok z →
  z !! userId = Some 0 →
  hasUserLikedPost score_value userId postId s = (s, Ok (JBool true)).
Proof.
  intros Htext Hkey Hzero.
  unfold hasUserLikedPost, _getSortedSetElementScore, zscoreAsync.
  run. norm_keys. rewrite Hkey, Hzero. simpl. by rewrite Htext.
Qed.

(** ** C10: creating and updating a record are the same write *)


(** ** Sorted sets: reading, storing, ranking *)

Lemma zsource_of_zset (s : store) (key : string) (z : zset) :
  zset_at s key = Ok z → zsource_at s key = Ok z.
Proof.
  unfold zset_at, zsource_at. destruct (s !! key) as [[]|]; congruence.
Qed.

Lemma zset_at_zstore (dest : string) (z : zset) (s : store) :
  zset_at (zstore dest z s) dest = Ok z.
Proof.
  unfold zset_at, zstore. case_decide as Hz.
  - by rewrite lookup_delete_eq, Hz.
  - by rewrite lookup_insert_eq.
Qed.

Lemma zstore_other (dest key : string) (z : zset) (s : store) :
  key ≠ dest → zstore dest z s !! key = s !! key.
Proof.
  intros Hne. unfold zstore. case_decide.
  - by rewrite lookup_delete_ne.
  - by rewrite lookup_insert_ne.
Qed.

Lemma delete_zstore (dest : string) (z : zset) (s : store) :
  delete dest (zstore dest z s) = delete dest s.
Proof.
  unfold zstore. case_decide.
  - apply map_eq. intros k. destruct (decide (k = dest)) as [->|Hne].
    + by rewrite !lookup_delete_eq.
    + by rewrite !lookup_delete_ne.
  - apply delete_insert_eq.
Qed.

#[global] Instance rank_le_total : Total rank_le.
Proof.
  intros [a x] [b y]. unfold rank_le. simpl.
  destruct (Z.lt_trichotomy x y) as [?|[->|?]]; [by left; left | | by right; left].
  destruct (String.leb_total a b); [left | right]; by right.
Qed.

Lemma index_range_all {A} (l : list A) : index_range l 0 (-1) = l.
Proof.
  unfold index_range. simpl.
  destruct l as [|x l]; [done|].
  rewrite (proj2 (Z.ltb_ge _ _)) by (simpl length; lia).
  replace (Z.to_nat _) with (length (x :: l)) by (simpl length; lia).
  by rewrite firstn_all.
Qed.

(** The entries of a sorted set in rank order: each entry once, lowest
    rank first. *)
Lemma by_rank_spec (z : zset) :
  Sorted rank_le (by_rank z) ∧
  NoDup (by_rank z).*1 ∧
  ∀ p n, (p, n) ∈ by_rank z ↔ z !! p = Some n.
Proof.
  unfold by_rank. split; [apply Sorted_merge_sort, _|]. split.
  - rewrite (merge_sort_Permutation rank_le (map_to_list z)).
    apply NoDup_fst_map_to_list.
  - intros p n. rewrite (merge_sort_Permutation rank_le (map_to_list z)).
    apply elem_of_map_to_list.
Qed.

(** ** C2: merging two timelines *)

(** C2.  When the two source keys hold sorted sets (or nothing),
    [createMergedPostsTimeline] resolves with the number of merged posts
    and leaves at the destination key the union of the two source
    registries: a post of both sources has the larger of its two scores, a
    post of one source keeps its score, and no other post is there.  No
    other key changes. *)
Theorem createMergedPostsTimeline_union_max
    (s : store) (dest src1 src2 : string) (z1 z2 : zset) :
  zset_at s ("timeline:" +:+ src1 +:+ ":posts") = Ok z1 →
  zset_at s ("timeline:" +:+ src2 +:+ ":posts") = Ok z2 →
  ∃ (merged : zset) (s' : store),
    createMergedPostsTimeline dest src1 src2 s = (s', Ok (Z.of_nat (size merged))) ∧
    zset_at s' ("timeline:" +:+ dest +:+ ":posts") = Ok merged ∧
    (∀ post : string,
       merged !! post =
       match z1 !! post, z2 !! post with
       | Some x, Some y => Some (Z.max x y)
       | Some x, None => Some x
       | None, Some y => Some y
       | None, None => None
       end) ∧
    (∀ key, key ≠ "timeline:" +:+ dest +:+ ":posts" → s' !! key = s !! key).
Proof.
  intros H1 H2.
  exists (union_with aggregate_max z1 z2).
  exists (zstore ("timeline:" +:+ dest +:+ ":posts") (union_with aggregate_max z1 z2) s).
  split; [|split; [|split]].
  - unfold createMergedPostsTimeline, zunionstoreAsync. run. norm_keys.
    by rewrite (zsource_of_zset _ _ _ H1), (zsource_of_zset _ _ _ H2).
  - apply zset_at_zstore.
  - intros post. rewrite lookup_union_with.
    by destruct (z1 !! post), (z2 !! post).
  - intros key Hne. by apply zstore_other.
Qed.

(** ** C1: intersecting two timelines *)

(** C1.  When the keys of the two timelines hold sorted sets (or nothing),
    [getTimelinesIntersectionPostIds] resolves with the posts the two
    registries have in common, each once, in ascending rank order of the
    larger of their two scores; afterwards the temporary key does not
    exist, and the store is the initial one without that key. *)
Theorem getTimelinesIntersectionPostIds_common_posts
    (s : store) (uuid timelineId1 timelineId2 : string) (z1 z2 : zset) :
  zset_at s ("timeline:" +:+ timelineId1 +:+ ":posts") = Ok z1 →
  zset_at s ("timeline:" +:+ timelineId2 +:+ ":posts") = Ok z2 →
  let randomKey := "timeline:" +:+ timelineId1 +:+ ":random:" +:+ uuid in
  ∃ (entries : list (string * Z)) (s' : store),
    getTimelinesIntersectionPostIds uuid timelineId1 timelineId2 s =
      (s', Ok entries.*1) ∧
    (∀ post, post ∈ entries.*1 ↔ is_Some (z1 !! post) ∧ is_Some (z2 !! post)) ∧
    (∀ post n, (post, n) ∈ entries ↔
       ∃ x y, z1 !! post = Some x ∧ z2 !! post = Some y ∧ n = Z.max x y) ∧
    NoDup entries.*1 ∧
    Sorted rank_le entries ∧
    s' !! randomKey = None ∧
    s' = delete randomKey s.
Proof.
  intros H1 H2 randomKey.
  set (common := intersection_with aggregate_max z2 z1).
  destruct (by_rank_spec common) as (Hsorted & Hnodup & Hin).
  assert (Hcommon : ∀ post n, (post, n) ∈ by_rank common ↔
            ∃ x y, z1 !! post = Some x ∧ z2 !! post = Some y ∧ n = Z.max x y).
  { intros post n. rewrite Hin. unfold common. rewrite lookup_intersection_with.
    destruct (z1 !! post) as [x|], (z2 !! post) as [y|]; simpl; split;
      try (intros (? & ? & ? & ? & ?); done); try done.
    - intros [= <-]. exists x, y. repeat split. lia.
    - intros (x' & y' & [= <-] & [= <-] & ->). unfold aggregate_max. f_equal. lia. }
  exists (by_rank common), (delete randomKey s).
  split; [|split; [|split; [|split; [|split; [|split]]]]]; try done.
  - unfold getTimelinesIntersectionPostIds, _getPostsTimelinesIntersection,
      _getTimelinesIntersectionPosts, _deleteRecord, zinterstoreAsync,
      zrangeAsync, delAsync.
    run. norm_keys. subst randomKey. norm_keys.
    rewrite (zsource_of_zset _ _ _ H1), (zsource_of_zset _ _ _ H2).
    fold common. rewrite zset_at_zstore, index_range_all.
    by rewrite delete_zstore.
  - intros post. rewrite list_elem_of_fmap. split.
    + intros ([p n] & -> & Hpn). simpl.
      apply Hcommon in Hpn as (x & y & Hx & Hy & _).
      rewrite Hx, Hy. by split.
    + intros [[x Hx] [y Hy]]. exists (post, Z.max x y). split; [done|].
      apply Hcommon. by exists x, y.
  - apply lookup_delete_eq.
Qed.

(** ** C3: guarded creation *)

#[local] Arguments hmsetAsync : simpl never.

Lemma existsAsync_absent (key : string) (s : store) :
  s !! key = None → existsAsync key s = (s, Ok 0%Z).
Proof. intros H. unfold existsAsync. by rewrite H. Qed.

Lemma existsAsync_present (key : string) (s : store) :
  s !! key ≠ None → existsAsync key s = (s, Ok 1%Z).
Proof. intros H. unfold existsAsync. by destruct (s !! key). Qed.

Lemma hmsetAsync_absent (key : string) (payload : fields) (s : store) :
  s !! key = None → payload ≠ ∅ →
  hmsetAsync key payload s = (<[key := VHash payload]> s, Ok tt).
Proof.
  intros H Hne. unfold hmsetAsync. rewrite decide_False by done. by rewrite H.
Qed.

Lemma hmsetAsync_record (key : string) (payload h : fields) (s : store) :
  record_at s key = Ok h → payload ≠ ∅ →
  hmsetAsync key payload s = (<[key := VHash (payload ∪ h)]> s, Ok tt).
Proof.
  intros H Hne. unfold hmsetAsync, record_at in *. rewrite decide_False by done.
  destruct (s !! key) as [[]|]; try done.
  - by injection H as ->.
  - injection H as <-. by rewrite (right_id_L ∅ (∪)).
Qed.

(** A method that probes [key] and then writes one record. *)
Lemma single_record_create (create : M string) (key id : string) (payload : fields) :
  (∀ s, create s =
        (let* exists_ := _existsRecord key in
         if negb (exists_ =? 0)%Z then throw AlreadyExists else
         await _createRecord key payload in
         ret id) s) →
  guarded_create create key id (λ _, payload ≠ ∅) (λ s, <[key := VHash payload]> s).
Proof.
  intros Hcreate s. rewrite Hcreate. unfold bind, _existsRecord, _createRecord.
  split.
  - intros Hkey. by rewrite existsAsync_present.
  - intros Hkey Hne. rewrite existsAsync_absent by done. simpl.
    by rewrite hmsetAsync_absent.
Qed.


(** The probe comes first: the conflict does not depend on what the payload
    holds. *)
Lemma createUser_conflict (uuid : string) (payload : fields) (s : store) :
  s !! ("user:" +:+ uuid) ≠ None →
  createUser uuid payload s = (s, Err AlreadyExists).
Proof.
  intros Hkey. unfold createUser, _existsRecord. run. norm_keys.
  destruct (s !! _); [reflexivity | exfalso; by apply Hkey].
Qed.

Lemma _createTimeline_conflict (timelineId : string) (userId : jsval)
    (payload : fields) (s : store) :
  s !! ("timeline:" +:+ timelineId) ≠ None →
  _createTimeline timelineId userId payload s = (s, Err AlreadyExists).
Proof.
  intros Hkey. unfold _createTimeline, _existsRecord. run. norm_keys.
  destruct (s !! _); [reflexivity | exfalso; by apply Hkey].
Qed.

Lemma createUser_guarded (uuid username : string) (payload : fields) :
  payload !! "username" = Some username →
  guarded_create (createUser uuid payload) ("user:" +:+ uuid) uuid
    (λ _, True) (createUser_writes uuid username payload).
Proof.
  intros Hu s.
  assert (Hne : payload ≠ ∅).
  { intros ->. by rewrite lookup_empty in Hu. }
  unfold createUser, _createUserUsernameIndex, createUserEmailIndex,
    _existsRecord, _createRecord, _setIndexValue, setAsync, _normalizeUserEmail.
  rewrite Hu. run. norm_keys. split.
  - intros Hkey. destruct (s !! _); [reflexivity | exfalso; by apply Hkey].
  - intros Hkey _. rewrite Hkey. simpl.
    rewrite hmsetAsync_absent;
      [| rewrite lookup_insert_ne by discriminate; assumption | assumption].
    unfold createUser_writes.
    destruct (payload !! "email") as [e|]; [|reflexivity].
    destruct (0 <? String.length e)%nat; simpl; norm_keys; reflexivity.
Qed.



(** ** C5: the username index *)

Lemma createUser_writes_username (uuid username : string) (payload : fields) (s : store) :
  createUser_writes uuid username payload s !! ("username:" +:+ username +:+ ":uid")
  = Some (VStr uuid).
Proof.
  unfold createUser_writes. cbv zeta.
  destruct (payload !! "email") as [e|];
    [destruct (0 <? String.length e)%nat|];
    norm_keys; rewrite ?lookup_insert_ne by discriminate; apply lookup_insert_eq.
Qed.

Lemma createUser_writes_record (uuid username : string) (payload : fields) (s : store) :
  createUser_writes uuid username payload s !! ("user:" +:+ uuid) = Some (VHash payload).
Proof.
  unfold createUser_writes. cbv zeta.
  destruct (payload !! "email") as [e|];
    [destruct (0 <? String.length e)%nat|];
    norm_keys; rewrite ?lookup_insert_ne by discriminate; apply lookup_insert_eq.
Qed.

(** C5, as amended.  For an account that [createUser] has created with
    the username [username], the index entry is stored under [username] as
    the payload gives it, without lower-casing; [getFeedOwnerByUsername]
    looks up the key of its lower-cased argument; so it resolves to the
    account for every name whose lower-cased form is [username], which are
    all the case variants of a [username] that is in lower case. *)
Theorem username_index_verbatim_lookup_lowercased
    (s s' : store) (uuid username : string) (payload : fields) :
  payload !! "username" = Some username →
  createUser uuid payload s = (s', Ok uuid) →
  s' !! ("username:" +:+ username +:+ ":uid") = Some (VStr uuid) ∧
  (∀ (name : string) (s0 : store),
     s0 !! ("username:" +:+ toLowerCase name +:+ ":uid") = None →
     getFeedOwnerByUsername name s0 = (s0, Ok None)) ∧
  (∀ name : string,
     toLowerCase name = username →
     getFeedOwnerByUsername name s' =
     (s', Ok (Some (initObject
                      (if bool_decide (payload !! "type" = Some "group")
                       then Group else User)
                      (ObjFields payload) (JStr uuid))))).
Proof.
  intros Hu Hcreate.
  destruct (createUser_guarded uuid username payload Hu s) as [Hconflict Hfresh].
  assert (Hs' : s' = createUser_writes uuid username payload s).
  { destruct (s !! ("user:" +:+ uuid)) eqn:Hkey.
    - rewrite Hconflict in Hcreate by done. discriminate.
    - rewrite Hfresh in Hcreate by done. congruence. }
  subst s'. clear Hcreate Hconflict Hfresh.
  split; [apply createUser_writes_username|]. split.
  - intros name s0 Hkey.
    unfold getFeedOwnerByUsername, getUserIdByUsername, _getIndexValue, getAsync.
    run. norm_keys. by rewrite Hkey.
  - intros name Hname.
    pose proof (createUser_writes_username uuid username payload s) as Hidx.
    pose proof (createUser_writes_record uuid username payload s) as Hrec.
    unfold getFeedOwnerByUsername, getUserIdByUsername, _getIndexValue, getAsync,
      getFeedOwnerById, _getRecord, hgetallAsync, hgetall.
    run. norm_keys. rewrite Hname, Hidx. simpl. norm_keys. rewrite Hrec.
    by case_bool_decide.
Qed.

(** C5, as first stated, fails: an account created with the username
    ["Alice"] has its index entry under ["Alice"], nothing is stored under
    the lower-cased ["alice"], and [getFeedOwnerByUsername] finds the
    account neither by ["Alice"] nor by ["alice"]. *)
Lemma username_index_not_lowercased :
  createUser "u1" Alice ∅ = (capitalised, Ok "u1") ∧
  capitalised !! "username:Alice:uid" = Some (VStr "u1") ∧
  capitalised !! "username:alice:uid" = None ∧
  getFeedOwnerByUsername "Alice" capitalised = (capitalised, Ok None) ∧
  getFeedOwnerByUsername "alice" capitalised = (capitalised, Ok None).
Proof. repeat split; vm_compute; reflexivity. Qed.

(** * The properties on the example data *)

Lemma common_posts_of_A_and_B :
  ∃ s' : store,
    getTimelinesIntersectionPostIds "6f1c" "A" "B" timelines = (s', Ok ["post2"]) ∧
    s' !! "timeline:A:random:6f1c" = None.
Proof.
  destruct (getTimelinesIntersectionPostIds_common_posts
              timelines "6f1c" "A" "B" postsA postsB)
    as (entries & s' & Hrun & _ & _ & _ & _ & Hgone & _).
  - vm_compute; reflexivity.
  - vm_compute; reflexivity.
  - exists s'. split; [|exact Hgone].
    rewrite Hrun. f_equal.
    assert (Hids : (getTimelinesIntersectionPostIds "6f1c" "A" "B" timelines).2
                   = Ok ["post2"]) by (vm_compute; reflexivity).
    rewrite Hrun in Hids. exact Hids.
Defined.

Lemma merged_posts_of_C_and_D :
  ∃ (merged : zset) (s' : store),
    createMergedPostsTimeline "M" "C" "D" timelines = (s', Ok 2%Z) ∧
    zset_at s' "timeline:M:posts" = Ok merged ∧
    merged !! "post1" = Some 20%Z ∧
    merged !! "post2" = Some 5%Z.
Proof.
  destruct (createMergedPostsTimeline_union_max timelines "M" "C" "D" postsC postsD)
    as (merged & s' & Hrun & Hdest & Hscores & _).
  - vm_compute; reflexivity.
  - vm_compute; reflexivity.
  - exists merged, s'.
    assert (Hcount : (createMergedPostsTimeline "M" "C" "D" timelines).2 = Ok 2%Z)
      by (vm_compute; reflexivity).
    rewrite Hrun in Hcount. simpl in Hcount. rewrite Hcount in Hrun.
    split; [exact Hrun|]. split; [exact Hdest|].
    split; rewrite Hscores; vm_compute; reflexivity.
Defined.


Lemma accounts_batch_read :
  ∃ replies : list (option jsobj),
    findRecordsByIds "user" ["u2"; "u1"; "u3"] accounts = (accounts, Ok replies) ∧
    length replies = 3%nat ∧
    replies !! 0%nat = Some None ∧
    replies !! 1%nat = Some (Some (ObjFields alice)) ∧
    replies !! 2%nat = Some None.
Proof.
  destruct (findRecordsByIds_one_reply_per_id accounts "user" ["u2"; "u1"; "u3"])
    as (replies & Hrun & Hlen & Hat).
  exists replies. split; [exact Hrun|]. split; [exact Hlen|].
  split; [|split].
  - apply (Hat 0%nat "u2"); vm_compute; reflexivity.
  - apply (Hat 1%nat "u1"); vm_compute; reflexivity.
  - apply (Hat 2%nat "u3"); vm_compute; reflexivity.
Defined.

Lemma alice_found_by_any_case :
  accounts !! "username:alice:uid" = Some (VStr "u1") ∧
  getFeedOwnerByUsername "ALICE" (after (createUser "u1" alice) ∅) =
  (after (createUser "u1" alice) ∅,
   Ok (Some (initObject User (ObjFields alice) (JStr "u1")))).
Proof.
  split; [vm_compute; reflexivity|].
  destruct (username_index_verbatim_lookup_lowercased
              ∅ (after (createUser "u1" alice) ∅) "u1" "alice" alice)
    as (_ & _ & Hfound).
  - vm_compute; reflexivity.
  - vm_compute; reflexivity.
  - rewrite (Hfound "ALICE") by (vm_compute; reflexivity).
    reflexivity.
Defined.

Lemma likes_of_P :
  hasUserLikedPost text_reply "bob" "P" liked = (liked, Ok (JBool true)) ∧
  hasUserLikedPost text_reply "carol" "P" liked = (liked, Ok (JBool true)) ∧
  hasUserLikedPost text_reply "dave" "P" liked = (liked, Ok (JBool false)) ∧
  hasUserLikedPost text_reply "erin" "P" liked = (liked, Ok JNull) ∧
  hasUserLikedPost number_reply "bob" "P" liked = (liked, Ok (JBool true)) ∧
  hasUserLikedPost number_reply "carol" "P" liked = (liked, Ok (JNum 0)) ∧
  hasUserLikedPost number_reply "dave" "P" liked = (liked, Ok (JBool false)) ∧
  hasUserLikedPost number_reply "erin" "P" liked = (liked, Ok JNull).
Proof.
  assert (Hlikes : zset_at liked ("post:" +:+ "P" +:+ ":likes") = Ok likes)
    by (vm_compute; reflexivity).
  pose proof (λ a, proj1 (proj1 (presence_tests_need_stored_nonnegative_score
                                   liked a "P")) likes Hlikes) as Htext.
  pose proof (λ a, proj1 (proj2 (presence_tests_need_stored_nonnegative_score
                                   liked a "P") number_reply (λ n, eq_refl))
                     likes Hlikes) as Hnumber.
  assert (Hbob : (0 ≤ 100)%Z) by lia.
  split; [|split; [|split; [|split; [|split; [|split; [|split]]]]]].
  - destruct (Htext "bob") as (v & -> & Hiff & Htrue & _).
    rewrite (Htrue (proj2 Hiff (ex_intro _ 100%Z (conj eq_refl Hbob)))).
    reflexivity.
  - destruct (Htext "carol") as (v & -> & _ & _ & _ & _ & Hzero).
    rewrite (Hzero eq_refl). reflexivity.
  - destruct (Htext "dave") as (v & -> & _ & _ & _ & Hneg & _).
    rewrite (Hneg (-5)%Z eq_refl eq_refl). reflexivity.
  - destruct (Htext "erin") as (v & -> & _ & _ & Hnone & _).
    rewrite (Hnone eq_refl). reflexivity.
  - destruct (Hnumber "bob") as (v & -> & Hiff & Htrue & _).
    rewrite (Htrue (proj2 Hiff (ex_intro _ 100%Z (conj eq_refl eq_refl)))).
    reflexivity.
  - destruct (Hnumber "carol") as (v & -> & _ & _ & _ & _ & Hzero).
    rewrite (Hzero eq_refl). reflexivity.
  - destruct (Hnumber "dave") as (v & -> & _ & _ & _ & Hneg & _).
    rewrite (Hneg (-5)%Z eq_refl eq_refl). reflexivity.
  - destruct (Hnumber "erin") as (v & -> & _ & _ & Hnone & _).
    rewrite (Hnone eq_refl). reflexivity.
Defined.

Lemma accounts_by_variant :
  getUserById tagged_union "nobody" accounts = (accounts, Ok None) ∧
  getUserById tagged_union "g1" accounts = (accounts, Err (Expected "User" "Group")) ∧
  getGroupById tagged_union "u1" accounts = (accounts, Err (Expected "Group" "User")).
Proof.
  split; [|split].
  - apply (proj1 (getUserById_getGroupById_variant tagged_union accounts "nobody")).
    vm_compute; reflexivity.
  - apply (proj1 (proj2 (getUserById_getGroupById_variant tagged_union accounts "g1"))
             devs);
      vm_compute; reflexivity.
  - apply (proj2 (proj2 (getUserById_getGroupById_variant tagged_union accounts "u1"))
             alice);
      [vm_compute; reflexivity | vm_compute; discriminate | reflexivity].
Defined.

Lemma key_of_three_segments :
  mkKey [JStr "user"; JStr "42"; JStr "timelines"] = Ok "user:42:timelines" ∧
  mkKey [JStr "user"; JNum 42; JStr "timelines"] = Err KeysShouldBeStrings.
Proof.
  split.
  - exact (proj1 mkKey_joins_or_rejects ["user"; "42"; "timelines"]).
  - apply (proj1 (proj2 (proj2 mkKey_joins_or_rejects))).
    split; [reflexivity|]. exists (JNum 42). split; [|reflexivity].
    apply elem_of_cons. right. apply elem_of_cons. by left.
Defined.

Lemma accounts_hydration_throws :
  getFeedOwnersByIds ["u1"; "u2"] accounts = (accounts, Err TypeError) ∧
  getUsersByIds tagged_union ["u1"; "u2"] accounts = (accounts, Err TypeError).
Proof.
  apply (getFeedOwnersByIds_absent_id_throws tagged_union accounts ["u1"; "u2"] "u2").
  - apply elem_of_cons. right. apply elem_of_cons. by left.
  - vm_compute; reflexivity.
Defined.


(** * Further properties *)

(** ** Keys *)

Lemma mkKey_strings (ss : list string) :
  mkKey (JStr <$> ss) = Ok (String.concat ":" ss).
Proof. unfold mkKey. by rewrite forallb_isString_strings, segment_strings. Qed.

Lemma concat_cons_cons (x y : string) (r : list string) :
  String.concat ":" (x :: y :: r) = x +:+ String ":" (String.concat ":" (y :: r)).
Proof. reflexivity. Qed.

Lemma no_sep_not_joined (x y b : string) :
  no_sep x = true → x ≠ y +:+ String ":" b.
Proof.
  revert x. induction y as [|c y IH]; intros x Hx Heq.
  - rewrite append_empty in Heq. subst x. simpl in Hx.
    discriminate Hx.
  - rewrite append_String in Heq. subst x. simpl in Hx.
    apply andb_prop in Hx as [_ Hx]. by apply (IH _ Hx).
Qed.

Lemma joined_head_unique (x y a b : string) :
  no_sep x = true → no_sep y = true →
  x +:+ String ":" a = y +:+ String ":" b → x = y ∧ a = b.
Proof.
  revert y. induction x as [|c x IH]; intros y Hx Hy Heq.
  - destruct y as [|d y].
    + rewrite !append_empty in Heq. by injection Heq.
    + rewrite append_empty, append_String in Heq. injection Heq as <- _.
      simpl in Hy. discriminate Hy.
  - destruct y as [|d y].
    + rewrite append_empty, append_String in Heq. injection Heq as -> _.
      simpl in Hx. discriminate Hx.
    + rewrite !append_String in Heq. injection Heq as -> Heq.
      simpl in Hx, Hy. apply andb_prop in Hx as [_ Hx]. apply andb_prop in Hy as [_ Hy].
      destruct (IH y Hx Hy Heq) as [-> ->]. done.
Qed.

Lemma concat_injective (xs ys : list string) :
  xs ≠ [] → ys ≠ [] →
  Forall (λ x, no_sep x = true) xs → Forall (λ y, no_sep y = true) ys →
  String.concat ":" xs = String.concat ":" ys → xs = ys.
Proof.
  revert ys. induction xs as [|x xs IH]; intros ys Hxs Hys Fx Fy Heq; [done|].
  destruct ys as [|y ys]; [done|].
  apply Forall_cons in Fx as [Hx Fx]. apply Forall_cons in Fy as [Hy Fy].
  destruct xs as [|x' xs], ys as [|y' ys].
  - change (x = y) in Heq. by subst.
  - rewrite concat_cons_cons in Heq. change (String.concat ":" [x]) with x in Heq.
    by apply no_sep_not_joined in Heq.
  - rewrite concat_cons_cons in Heq. change (String.concat ":" [y]) with y in Heq.
    symmetry in Heq. by apply no_sep_not_joined in Heq.
  - rewrite !concat_cons_cons in Heq.
    destruct (joined_head_unique _ _ _ _ Hx Hy Heq) as [-> Hrest].
    f_equal. by apply IH.
Qed.

(** X1.  [mkKey] joins two different non-empty lists of segments
    without [":"] into different keys: keys composed from such segments do
    not collide. *)
Theorem mkKey_injective_without_sep (xs ys : list string) :
  xs ≠ [] → ys ≠ [] →
  Forall (λ x, no_sep x = true) xs → Forall (λ y, no_sep y = true) ys →
  xs ≠ ys →
  mkKey (JStr <$> xs) ≠ mkKey (JStr <$> ys).
Proof.
  intros Hxs Hys Fx Fy Hne. rewrite !mkKey_strings. intros [= Heq].
  apply Hne. by apply concat_injective.
Qed.

(** A segment with [":"] in it can make two keys collide: the record of
    an account whose id is ["1:timelines"] and the timelines of the
    account ["1"] have the same key. *)
Lemma mkKey_collision_with_sep :
  mkKey [JStr "user"; JStr "1:timelines"] = mkKey [JStr "user"; JStr "1"; JStr "timelines"].
Proof. reflexivity. Qed.

(** ** Records *)

Lemma getModelById_run {P} (m : modelDef) (modelName id : string) (params : P)
    (s : store) :
  getModelById m modelName id params s =
  (s, match hgetall s (modelName +:+ ":" +:+ id) with
      | Ok None => Ok None
      | Ok (Some h) => Ok (Some (initObjectWith m (Some (ObjFields h)) (JStr id) params))
      | Err e => Err e
      end).
Proof.
  unfold getModelById, findRecordById, _getRecord, hgetallAsync. run.
  by destruct (hgetall s _) as [[h|]|e].
Qed.

Lemma getModelById_record {P} (m : modelDef) (modelName id : string) (params : P)
    (s : store) (key : string) (h : fields) :
  key = modelName +:+ ":" +:+ id →
  getModelById m modelName id params (<[key := VHash h]> s) =
  (<[key := VHash h]> s,
   Ok (Some (initObjectWith m (Some (ObjFields h)) (JStr id) params))).
Proof.
  intros ->. rewrite getModelById_run. unfold hgetall.
  by rewrite lookup_insert_eq.
Qed.

Lemma single_record_written (create : M string) (key id : string) (payload : fields)
    (s : store) :
  (∀ s, create s =
        (let* exists_ := _existsRecord key in
         if negb (exists_ =? 0)%Z then throw AlreadyExists else
         await _createRecord key payload in
         ret id) s) →
  payload ≠ ∅ → s !! key = None →
  create s = (<[key := VHash payload]> s, Ok id).
Proof.
  intros Hcreate Hne Hkey.
  by apply (single_record_create create key id payload Hcreate s).
Qed.

Lemma single_record_success (create : M string) (key id : string) (payload : fields)
    (s s' : store) (id' : string) :
  (∀ s, create s =
        (let* exists_ := _existsRecord key in
         if negb (exists_ =? 0)%Z then throw AlreadyExists else
         await _createRecord key payload in
         ret id) s) →
  create s = (s', Ok id') → id' = id ∧ s' !! key ≠ None.
Proof.
  intros Hcreate. rewrite Hcreate.
  unfold bind, _existsRecord, existsAsync, _createRecord, hmsetAsync, throw, ret.
  destruct (s !! key) eqn:Hkey; simpl; [intros [=]|].
  case_decide; simpl; [intros [=]|].
  rewrite Hkey. intros [= <- <-]. split; [reflexivity|].
  rewrite lookup_insert_eq. discriminate.
Qed.

Lemma single_record_taken (create : fields → M string) (key id : string) :
  (∀ payload s, create payload s =
        (let* exists_ := _existsRecord key in
         if negb (exists_ =? 0)%Z then throw AlreadyExists else
         await _createRecord key payload in
         ret id) s) →
  taken_once_created create id.
Proof.
  intros Hcreate payload payload' s s' id' Hrun.
  destruct (single_record_success (create payload) key id payload s s' id'
              (Hcreate payload) Hrun) as [-> Hkey].
  split; [reflexivity|].
  by apply (single_record_create (create payload') key id payload' (Hcreate payload') s').
Qed.

(** X2.  A post, a comment or an attachment created with a non-empty
    payload under a free id is read back by its id with exactly the fields
    of the payload, the id and the parameters of the lookup. *)
Theorem created_record_is_read_back {P : Type}
    (uuid : string) (payload : fields) (params : P) (s : store) :
  payload ≠ ∅ →
  (s !! ("post:" +:+ uuid) = None →
   getPostById uuid params (after (createPost uuid payload) s) =
   (after (createPost uuid payload) s,
    Ok (Some (initObjectWith Post (Some (ObjFields payload)) (JStr uuid) params)))) ∧
  (s !! ("comment:" +:+ uuid) = None →
   getCommentById uuid params (after (createComment uuid payload) s) =
   (after (createComment uuid payload) s,
    Ok (Some (initObjectWith Comment (Some (ObjFields payload)) (JStr uuid) params)))) ∧
  (s !! ("attachment:" +:+ uuid) = None →
   getAttachmentById uuid params (after (createAttachment uuid payload) s) =
   (after (createAttachment uuid payload) s,
    Ok (Some (initObjectWith Attachment (Some (ObjFields payload)) (JStr uuid) params)))).
Proof.
  intros Hne. split; [|split]; intros Hkey; unfold after.
  - rewrite (single_record_written (createPost uuid payload) ("post:" +:+ uuid) uuid
               payload s) by (reflexivity || assumption).
    by apply getModelById_record.
  - rewrite (single_record_written (createComment uuid payload) ("comment:" +:+ uuid)
               uuid payload s) by (reflexivity || assumption).
    by apply getModelById_record.
  - rewrite (single_record_written (createAttachment uuid payload)
               ("attachment:" +:+ uuid) uuid payload s) by (reflexivity || assumption).
    by apply getModelById_record.
Qed.

Lemma hmsetAsync_ok (key : string) (payload : fields) (s s' : store) :
  hmsetAsync key payload s = (s', Ok tt) → ∃ h, s' !! key = Some (VHash h).
Proof.
  unfold hmsetAsync. case_decide; [intros [=]|].
  destruct (s !! key) as [[]|]; intros [= <-]; eexists; apply lookup_insert_eq.
Qed.

Lemma createUser_success (uuid : string) (payload : fields) (s s' : store) (id : string) :
  createUser uuid payload s = (s', Ok id) →
  id = uuid ∧ s !! ("user:" +:+ uuid) = None ∧
  ∃ username, payload !! "username" = Some username ∧
              s' = createUser_writes uuid username payload s.
Proof.
  intros Hrun.
  destruct (s !! ("user:" +:+ uuid)) eqn:Hkey.
  { rewrite createUser_conflict in Hrun by (rewrite Hkey; discriminate).
    discriminate Hrun. }
  destruct (payload !! "username") as [username|] eqn:Hu.
  - destruct (createUser_guarded uuid username payload Hu s) as [_ Hfresh].
    rewrite Hfresh in Hrun by done. injection Hrun as <- <-.
    split; [reflexivity|]. split; [reflexivity|]. by exists username.
  - exfalso. revert Hrun.
    unfold createUser, _createUserUsernameIndex, _existsRecord. rewrite Hu.
    run. norm_keys. rewrite Hkey. simpl. intros [=].
Qed.

Lemma _createTimeline_success (timelineId : string) (userId : jsval) (payload : fields)
    (s s' : store) (id : string) :
  _createTimeline timelineId userId payload s = (s', Ok id) →
  id = timelineId ∧ s' !! ("timeline:" +:+ timelineId) ≠ None.
Proof.
  unfold _createTimeline, _createUserTimeline, _existsRecord, _createRecord.
  run. norm_keys.
  destruct (s !! _) eqn:Hkey; simpl; [intros [=]|].
  destruct userId; simpl; try solve [intros [=]].
  match goal with
  | |- context [hmsetAsync ?k ?p s] =>
      destruct (hmsetAsync k p s) as [s1 [[]|e1]] eqn:E1
  end.
  - match goal with
    | |- context [hmsetAsync ?k ?p s1] =>
        destruct (hmsetAsync k p s1) as [s2 [[]|e2]] eqn:E2
    end.
    + simpl. intros [= <- <-]. split; [reflexivity|].
      apply hmsetAsync_ok in E2 as [h Hh]. rewrite Hh. discriminate.
    + simpl. destruct (synchronous e2); intros [=].
  - destruct (synchronous e1); [intros [=]|].
    match goal with
    | |- context [hmsetAsync ?k ?p s1] =>
        destruct (hmsetAsync k p s1) as [s2 [[]|e2]] eqn:E2
    end; simpl; [|destruct (synchronous e2)]; intros [=].
Qed.

(** X3.  An id under which an account, a post, a comment, an attachment
    or a timeline has been created is taken: the same creation with that
    id rejects with "Already exists" and writes nothing, whatever its
    payload.  The discussions timeline of an account has the id of the
    account, so it is created at most once. *)
Theorem created_id_is_taken (uuid : string) :
  taken_once_created (createUser uuid) uuid ∧
  taken_once_created (createPost uuid) uuid ∧
  taken_once_created (createComment uuid) uuid ∧
  taken_once_created (createAttachment uuid) uuid ∧
  taken_once_created (createTimeline uuid) uuid ∧
  taken_once_created (createUserDiscussionsTimeline uuid) uuid.
Proof.
  split; [|split; [|split; [|split; [|split]]]].
  - intros payload payload' s s' id Hrun.
    apply createUser_success in Hrun as (-> & _ & username & Hu & ->).
    split; [reflexivity|]. apply createUser_conflict.
    rewrite createUser_writes_record. discriminate.
  - apply (single_record_taken _ ("post:" +:+ uuid)). reflexivity.
  - apply (single_record_taken _ ("comment:" +:+ uuid)). reflexivity.
  - apply (single_record_taken _ ("attachment:" +:+ uuid)). reflexivity.
  - intros payload payload' s s' id Hrun. unfold createTimeline in *.
    apply _createTimeline_success in Hrun as [-> Hkey].
    split; [reflexivity|]. by apply _createTimeline_conflict.
  - intros payload payload' s s' id Hrun.
    unfold createUserDiscussionsTimeline, getUserDiscussionsTimelineId in *.
    apply _createTimeline_success in Hrun as [-> Hkey].
    split; [reflexivity|]. by apply _createTimeline_conflict.
Qed.

Lemma _updateRecord_merges (key : string) : merges_into (_updateRecord key) key.
Proof. intros payload h s Hne Hrec. by apply hmsetAsync_record. Qed.

(** X4.  [updateUser], [updatePost], [updateComment], [updateAttachment]
    and [createUserStats] have no existence precondition: a non-empty
    payload is merged into the record at the key, which is created when it
    was absent; a field of the payload replaces the stored one and every
    other stored field is kept, as the record read back shows. *)
Theorem updates_merge_or_create (id : string) :
  merges_into (updateUser id) ("user:" +:+ id) ∧
  merges_into (updatePost id) ("post:" +:+ id) ∧
  merges_into (updateComment id) ("comment:" +:+ id) ∧
  merges_into (updateAttachment id) ("attachment:" +:+ id) ∧
  merges_into (createUserStats id) ("stats:" +:+ id) ∧
  (∀ (P : Type) (params : P) (payload h : fields) (s : store),
     payload ≠ ∅ → record_at s ("post:" +:+ id) = Ok h →
     ∃ merged : fields,
       getPostById id params (after (updatePost id payload) s) =
       (after (updatePost id payload) s,
        Ok (Some (initObjectWith Post (Some (ObjFields merged)) (JStr id) params))) ∧
       ∀ field, merged !! field =
                match payload !! field with
                | Some v => Some v
                | None => h !! field
                end).
Proof.
  split; [|split; [|split; [|split; [|split]]]];
    try (intros payload h s Hne Hrec; by apply (_updateRecord_merges _ payload h s)).
  intros P params payload h s Hne Hrec. exists (payload ∪ h). split.
  - unfold after.
    rewrite (_updateRecord_merges ("post:" +:+ id) payload h s Hne Hrec
             : updatePost id payload s = _).
    by apply getModelById_record.
  - intros field. rewrite lookup_union.
    by destruct (payload !! field), (h !! field).
Qed.

(** X5.  [setPostUpdatedAt] and [setAttachmentPostId] set one field and
    keep the others; on an id without a record they create a record that
    holds that field alone. *)
Theorem single_field_updates (id value : string) (h : fields) (s : store) :
  (record_at s ("post:" +:+ id) = Ok h →
   setPostUpdatedAt id value s =
   (<["post:" +:+ id := VHash (<["updatedAt" := value]> h)]> s, Ok tt)) ∧
  (record_at s ("attachment:" +:+ id) = Ok h →
   setAttachmentPostId id value s =
   (<["attachment:" +:+ id := VHash (<["postId" := value]> h)]> s, Ok tt)) ∧
  (s !! ("post:" +:+ id) = None →
   ∀ (P : Type) (params : P),
     getPostById id params (after (setPostUpdatedAt id value) s) =
     (after (setPostUpdatedAt id value) s,
      Ok (Some (initObjectWith Post (Some (ObjFields {[ "updatedAt" := value ]}))
                  (JStr id) params)))).
Proof.
  assert (Hpost : ∀ h, record_at s ("post:" +:+ id) = Ok h →
            setPostUpdatedAt id value s =
            (<["post:" +:+ id := VHash (<["updatedAt" := value]> h)]> s, Ok tt)).
  { intros h' Hrec. rewrite (insert_union_singleton_l h').
    apply (_updateRecord_merges ("post:" +:+ id) _ h' s); [|exact Hrec].
    apply map_non_empty_singleton. }
  split; [apply Hpost|]. split.
  - intros Hrec. rewrite (insert_union_singleton_l h).
    apply (_updateRecord_merges ("attachment:" +:+ id) _ h s); [|exact Hrec].
    apply map_non_empty_singleton.
  - intros Hkey P params. unfold after.
    rewrite (Hpost ∅) by (unfold record_at; by rewrite Hkey).
    rewrite insert_empty. by apply getModelById_record.
Qed.

(** X6.  [deletePost] removes the record of the post and nothing else:
    afterwards the post is not found and its id is free for a creation,
    while every other key, the likes, comments, attachments and timelines
    of the post among them, is as it was. *)
Theorem deletePost_removes_only_the_record
    (id : string) (s : store) :
  let s' := after (deletePost id) s in
  (∀ (P : Type) (params : P), getPostById id params s' = (s', Ok None)) ∧
  (∀ payload, payload ≠ ∅ →
     createPost id payload s' = (<["post:" +:+ id := VHash payload]> s', Ok id)) ∧
  (∀ key, key ≠ "post:" +:+ id → s' !! key = s !! key) ∧
  (∀ index, s' !! ("post:" +:+ id +:+ ":" +:+ index) = s !! ("post:" +:+ id +:+ ":" +:+ index)).
Proof.
  assert (Hs' : after (deletePost id) s = delete ("post:" +:+ id) s) by reflexivity.
  simpl. rewrite Hs'. clear Hs'.
  assert (Hgone : delete ("post:" +:+ id) s !! ("post:" +:+ id) = None)
    by apply lookup_delete_eq.
  split; [|split; [|split]].
  - intros P params. unfold getPostById. rewrite getModelById_run. unfold hgetall.
    change ("post" +:+ ":" +:+ id) with ("post:" +:+ id). by rewrite Hgone.
  - intros payload Hne.
    by apply (single_record_written (createPost id payload) ("post:" +:+ id) id payload).
  - intros key Hne. by apply lookup_delete_ne.
  - intros index. apply lookup_delete_ne. norm_keys. intros [= Heq].
    revert Heq. clear. induction id as [|c id IH]; simpl; [discriminate|].
    rewrite append_String. intros [= Heq]. by apply IH.
Qed.

Lemma instancesOfReplies_lookup {P} (m : modelDef) (ids : list string) (params : P)
    (responses : list (option jsobj)) (i : nat) :
  instancesOfReplies m ids params responses !! i =
  (λ attrs, initObjectWith m attrs (js (ids !! i)) params) <$> responses !! i.
Proof. unfold instancesOfReplies. apply list_lookup_imap. Qed.

Lemma getModelsByIds_instances {P} (m : modelDef) (modelName : string)
    (ids : list string) (params : P) (s : store) :
  one_instance_per_id m modelName ids params s (getModelsByIds m modelName ids params s).
Proof.
  unfold getModelsByIds, bind, ret. rewrite findRecordsByIds_replies.
  eexists. split; [reflexivity|]. split.
  - unfold instancesOfReplies. by rewrite length_imap, length_fmap.
  - intros i id Hi. rewrite instancesOfReplies_lookup, list_lookup_fmap, Hi. simpl.
    eexists. split; [reflexivity|]. simpl. repeat split.
    + unfold hgetall. by intros ->.
    + unfold hgetall. by intros h ->.
Qed.

(** X7.  [getTimelinesByIds], [getPostsByIds], [getStatsByIds],
    [getCommentsByIds] and [getAttachmentsByIds] resolve for every list of
    ids with one instance per id, in the order of the ids: an id without a
    record gives no error and no [null] but an instance built from
    [null], with that id. *)
Theorem models_by_ids_give_one_instance_per_id {P : Type}
    (ids : list string) (params : P) (s : store) :
  one_instance_per_id Timeline "timeline" ids params s (getTimelinesByIds ids params s) ∧
  one_instance_per_id Post "post" ids params s (getPostsByIds ids params s) ∧
  one_instance_per_id Stats "stats" ids params s (getStatsByIds ids params s) ∧
  one_instance_per_id Comment "comment" ids params s (getCommentsByIds ids params s) ∧
  one_instance_per_id Attachment "attachment" ids params s
    (getAttachmentsByIds ids params s).
Proof. repeat split; apply getModelsByIds_instances. Qed.

(** ** Accounts by index *)

Lemma getAsync_string (key v : string) (s : store) :
  s !! key = Some (VStr v) → getAsync key s = (s, Ok (Some v)).
Proof. intros H. unfold getAsync. by rewrite H. Qed.

Lemma getAsync_absent (key : string) (s : store) :
  s !! key = None → getAsync key s = (s, Ok None).
Proof. intros H. unfold getAsync. by rewrite H. Qed.

Lemma findUserByAttributeIndex_run (attribute value : string) (s : store) :
  findUserByAttributeIndex attribute value s
  = getAsync (attribute +:+ ":" +:+ value +:+ ":uid") s.
Proof. reflexivity. Qed.

(** X8.  The email index ignores case in both directions: an entry set
    for an email is found by, and dropped by, every email with the same
    lower-cased form. *)
Theorem email_index_ignores_case (userId email email' : string) (s : store) :
  toLowerCase email' = toLowerCase email →
  let s1 := after (createUserEmailIndex userId email) s in
  getUserIdByEmail email' s1 = (s1, Ok (Some userId)) ∧
  getUserIdByEmail email (after (dropUserEmailIndex email') s1)
  = (after (dropUserEmailIndex email') s1, Ok None).
Proof.
  intros Hcase. simpl.
  assert (Hs1 : after (createUserEmailIndex userId email) s =
                <["email:" +:+ toLowerCase email +:+ ":uid" := VStr userId]> s)
    by reflexivity.
  rewrite Hs1. clear Hs1.
  assert (Hs2 : ∀ s1, after (dropUserEmailIndex email') s1 =
                      delete ("email:" +:+ toLowerCase email +:+ ":uid") s1).
  { intros s1. unfold after, dropUserEmailIndex, _normalizeUserEmail.
    rewrite Hcase. reflexivity. }
  rewrite Hs2. clear Hs2.
  unfold getUserIdByEmail, _normalizeUserEmail, _getIndexValue. rewrite Hcase.
  run. norm_keys. split.
  - apply getAsync_string, lookup_insert_eq.
  - apply getAsync_absent, lookup_delete_eq.
Qed.

Lemma createUser_writes_email (uuid username e : string) (payload : fields) (s : store) :
  payload !! "email" = Some e → e ≠ "" →
  createUser_writes uuid username payload s !! ("email:" +:+ toLowerCase e +:+ ":uid")
  = Some (VStr uuid).
Proof.
  intros He Hne. unfold createUser_writes. cbv zeta. rewrite He.
  destruct e as [|c e]; [done|]. simpl. apply lookup_insert_eq.
Qed.

Lemma getUserById_user (derives : classDef → classDef → bool) (id : string)
    (h : fields) (s : store) :
  s !! ("user:" +:+ id) = Some (VHash h) → h !! "type" ≠ Some "group" →
  derives User User = true →
  getUserById derives id s = (s, Ok (Some (initObject User (ObjFields h) (JStr id)))).
Proof.
  intros Hkey Htype Hderives.
  unfold getUserById, instanceOf, getFeedOwnerById, _getRecord, hgetallAsync, hgetall.
  run. norm_keys. rewrite Hkey.
  rewrite bool_decide_eq_false_2 by done. simpl. by rewrite Hderives.
Qed.

(** X9.  A user created with a non-empty email is found by
    [getUserByEmail] under every email with the same lower-cased form,
    with the fields of the payload; this holds when the payload is not
    that of a group and an instance of [User] counts as one. *)
Theorem created_user_is_found_by_email
    (derives : classDef → classDef → bool)
    (uuid e email : string) (payload : fields) (s s' : store) :
  createUser uuid payload s = (s', Ok uuid) →
  payload !! "email" = Some e → e ≠ "" →
  payload !! "type" ≠ Some "group" →
  derives User User = true →
  toLowerCase email = toLowerCase e →
  getUserByEmail derives email s' =
  (s', Ok (Some (initObject User (ObjFields payload) (JStr uuid)))).
Proof.
  intros Hrun He Hne Htype Hderives Hcase.
  apply createUser_success in Hrun as (_ & _ & username & Hu & ->).
  pose proof (createUser_writes_email uuid username e payload s He Hne) as Hidx.
  pose proof (createUser_writes_record uuid username payload s) as Hrec.
  unfold getUserByEmail, bind. rewrite Hcase, findUserByAttributeIndex_run.
  rewrite (getAsync_string _ uuid) by exact Hidx.
  by apply getUserById_user.
Qed.

(** X10.  A reset token resolves to the account it was created for, as
    [getUserById] resolves that account, and to [null] once the token has
    been deleted; a token that was never created resolves to [null]
    too. *)
Theorem reset_token_round_trip
    (derives : classDef → classDef → bool) (userId token : string) (s : store) :
  let s1 := after (createUserResetPasswordToken userId token) s in
  getUserByResetToken derives token s1 = getUserById derives userId s1 ∧
  getUserByResetToken derives token (after (deleteUserResetPasswordToken token) s1)
  = (after (deleteUserResetPasswordToken token) s1, Ok None) ∧
  (s !! ("reset:" +:+ token +:+ ":uid") = None →
   getUserByResetToken derives token s = (s, Ok None)).
Proof.
  simpl.
  assert (Hs1 : after (createUserResetPasswordToken userId token) s =
                <["reset:" +:+ token +:+ ":uid" := VStr userId]> s) by reflexivity.
  rewrite Hs1. clear Hs1.
  assert (Hs2 : ∀ s1, after (deleteUserResetPasswordToken token) s1 =
                      delete ("reset:" +:+ token +:+ ":uid") s1) by reflexivity.
  rewrite Hs2. clear Hs2.
  unfold getUserByResetToken, bind. rewrite !findUserByAttributeIndex_run.
  split; [|split].
  - by rewrite (getAsync_string _ userId) by apply lookup_insert_eq.
  - by rewrite getAsync_absent by apply lookup_delete_eq.
  - intros Hkey. by rewrite getAsync_absent by exact Hkey.
Qed.

(** ** Sorted sets *)

Lemma string_compare_le_trans (a b c : string) :
  String.compare a b ≠ Gt → String.compare b c ≠ Gt → String.compare a c ≠ Gt.
Proof.
  revert b c. induction a as [|x a IH]; intros [|y b] [|z c]; simpl; try done.
  unfold Ascii.compare.
  destruct (N.compare_spec (N_of_ascii x) (N_of_ascii y)) as [Hxy|Hxy|Hxy];
    destruct (N.compare_spec (N_of_ascii y) (N_of_ascii z)) as [Hyz|Hyz|Hyz];
    destruct (N.compare_spec (N_of_ascii x) (N_of_ascii z)) as [Hxz|Hxz|Hxz];
    try done; try lia.
  apply IH.
Qed.

Lemma string_leb_trans (a b c : string) :
  String.leb a b = true → String.leb b c = true → String.leb a c = true.
Proof.
  unfold String.leb. intros Hab Hbc.
  pose proof (string_compare_le_trans a b c) as Htrans.
  destruct (String.compare a b), (String.compare b c), (String.compare a c);
    try done; exfalso; by apply Htrans.
Qed.

#[global] Instance rank_le_trans : Transitive rank_le.
Proof.
  intros [a x] [b y] [c z]. unfold rank_le. simpl.
  intros [Hxy|[-> Hab]] [Hyz|[-> Hbc]].
  - left. lia.
  - by left.
  - by left.
  - right. split; [done|]. by apply (string_leb_trans a b c).
Qed.

Lemma StronglySorted_filter {A} (R : relation A) (P : A → Prop)
    `{∀ x, Decision (P x)} (l : list A) :
  StronglySorted R l → StronglySorted R (filter P l).
Proof.
  induction 1 as [|x l Hsorted IH Hall]; [constructor|].
  rewrite filter_cons. case_decide; [|done].
  constructor; [done|].
  apply Forall_forall. intros y Hy. apply list_elem_of_filter in Hy as [_ Hy].
  by apply (proj1 (Forall_forall _ _) Hall).
Qed.

(** The entries of a sorted set from the highest rank to the lowest. *)
Lemma by_rank_reverse_spec (z : zset) :
  StronglySorted (flip rank_le) (reverse (by_rank z)) ∧
  NoDup (reverse (by_rank z)).*1 ∧
  ∀ p n, (p, n) ∈ reverse (by_rank z) ↔ z !! p = Some n.
Proof.
  destruct (by_rank_spec z) as (Hsorted & Hnodup & Hin).
  split; [|split].
  - apply Sorted_StronglySorted; [apply _|]. by apply Sorted_reverse.
  - by rewrite fmap_reverse, reverse_Permutation.
  - intros p n. by rewrite elem_of_reverse.
Qed.

Lemma zset_at_insert (key : string) (z : zset) (s : store) :
  zset_at (<[key := VZSet z]> s) key = Ok z.
Proof. unfold zset_at. by rewrite lookup_insert_eq. Qed.

Lemma zaddAsync_run (key : string) (score : Z) (element : string) (z : zset)
    (s : store) :
  zset_at s key = Ok z →
  zaddAsync key score element s =
  (<[key := VZSet (<[element := score]> z)]> s,
   Ok (if z !! element is Some _ then 0 else 1)%Z).
Proof. intros Hz. unfold zaddAsync. by rewrite Hz. Qed.

Lemma zremAsync_run (key element : string) (z : zset) (s : store) :
  zset_at s key = Ok z →
  zremAsync key element s =
  (zstore key (delete element z) s, Ok (if z !! element is Some _ then 1 else 0)%Z).
Proof. intros Hz. unfold zremAsync. by rewrite Hz. Qed.

Lemma zcardAsync_run (key : string) (z : zset) (s : store) :
  zset_at s key = Ok z → zcardAsync key s = (s, Ok (Z.of_nat (size z))).
Proof. intros Hz. unfold zcardAsync. by rewrite Hz. Qed.

Lemma zscoreAsync_run (score_value : Z → jsval) (key element : string) (z : zset)
    (s : store) :
  zset_at s key = Ok z →
  zscoreAsync score_value key element s = (s, Ok (score_reply score_value (z !! element))).
Proof. intros Hz. unfold zscoreAsync. by rewrite Hz. Qed.

Lemma zrevrangeAsync_all (key : string) (z : zset) (s : store) :
  zset_at s key = Ok z →
  zrevrangeAsync key 0 (-1) s = (s, Ok (reverse (by_rank z)).*1).
Proof. intros Hz. unfold zrevrangeAsync. by rewrite Hz, index_range_all. Qed.

(** X11.  Adding a post to a timeline sets its score to the given time
    whether the post was there or not: the count grows by one for a new
    post only, and adding the post again with another time leaves one
    entry for it, with the later time, and the same count. *)
Theorem addPostToTimeline_upserts
    (timelineId postId : string) (time time' : Z) (z : zset) (s : store) :
  zset_at s ("timeline:" +:+ timelineId +:+ ":posts") = Ok z →
  let s1 := after (addPostToTimeline timelineId time postId) s in
  let s2 := after (addPostToTimeline timelineId time' postId) s1 in
  let count := (Z.of_nat (size z) + (if z !! postId is Some _ then 0 else 1))%Z in
  zset_at s1 ("timeline:" +:+ timelineId +:+ ":posts") = Ok (<[postId := time]> z) ∧
  getTimelinePostsCount timelineId s1 = (s1, Ok count) ∧
  zset_at s2 ("timeline:" +:+ timelineId +:+ ":posts") = Ok (<[postId := time']> z) ∧
  getTimelinePostsCount timelineId s2 = (s2, Ok count).
Proof.
  intros Hz. simpl.
  set (key := "timeline:" +:+ timelineId +:+ ":posts").
  assert (Hadd : ∀ t s0, addPostToTimeline timelineId t postId s0 = zaddAsync key t postId s0)
    by reflexivity.
  assert (Hcount : ∀ s0, getTimelinePostsCount timelineId s0 = zcardAsync key s0)
    by reflexivity.
  assert (Hsize : Z.of_nat (size (<[postId := time]> z)) =
                  (Z.of_nat (size z) + (if z !! postId is Some _ then 0 else 1))%Z).
  { rewrite map_size_insert. destruct (z !! postId); simpl; lia. }
  unfold after. rewrite !Hadd, (zaddAsync_run key time postId z s Hz). simpl.
  rewrite (zaddAsync_run key time' postId (<[postId := time]> z)) by apply zset_at_insert.
  simpl. rewrite insert_insert_eq, insert_insert_eq.
  split; [apply zset_at_insert|]. split; [|split; [apply zset_at_insert|]].
  - rewrite Hcount, (zcardAsync_run key (<[postId := time]> z)) by apply zset_at_insert.
    by rewrite Hsize.
  - rewrite Hcount, (zcardAsync_run key (<[postId := time']> z)) by apply zset_at_insert.
    rewrite map_size_insert. destruct (z !! postId); simpl; do 2 f_equal; lia.
Qed.

Lemma index_range_page {A} (l : list A) (start stop : Z) :
  (0 ≤ start ≤ stop)%Z →
  index_range l start stop = take (Z.to_nat (stop - start + 1)) (drop (Z.to_nat start) l).
Proof.
  intros [Hstart Hstop]. unfold index_range.
  rewrite (proj2 (Z.ltb_ge start 0)) by lia.
  rewrite (proj2 (Z.ltb_ge stop 0)) by lia.
  destruct (Z.ltb_spec (Z.min stop (Z.of_nat (length l) - 1)) start) as [Hlt|Hge].
  - symmetry. rewrite drop_ge by lia. apply take_nil.
  - destruct (Z.le_ge_cases stop (Z.of_nat (length l) - 1)) as [Hin|Hout].
    + by rewrite Z.min_l by lia.
    + rewrite Z.min_r by lia. rewrite !take_ge; [done| |]; rewrite length_drop; lia.
Qed.

Lemma _getSortedSetElements_pages (key : string) (z : zset) (s : store) :
  zset_at s key = Ok z → ranked_pages z s (_getSortedSetElements key).
Proof.
  intros Hz. destruct (by_rank_reverse_spec z) as (Hsorted & Hnodup & Hin).
  exists (reverse (by_rank z)).
  split; [by apply zrevrangeAsync_all|]. split; [done|]. split; [done|].
  split; [done|].
  intros start stop Hpage. eexists. split; [|split; [reflexivity|]].
  - unfold _getSortedSetElements, zrevrangeAsync. rewrite Hz.
    by rewrite index_range_page.
  - rewrite length_take. lia.
Qed.

(** X12.  [getTimelinePostsRange] and [getPostLikesRange] list the
    members from the highest score to the lowest, each once: all of them
    for the indices 0 and -1, and for the indices of a page that part of
    the list, never more than [finish - start + 1] members. *)
Theorem ranges_are_descending_pages (id : string) (z : zset) (s : store) :
  (zset_at s ("timeline:" +:+ id +:+ ":posts") = Ok z →
   ranked_pages z s (getTimelinePostsRange id)) ∧
  (zset_at s ("post:" +:+ id +:+ ":likes") = Ok z →
   ranked_pages z s (getPostLikesRange id)).
Proof.
  split; intros Hz.
  - by apply (_getSortedSetElements_pages ("timeline:" +:+ id +:+ ":posts")).
  - by apply (_getSortedSetElements_pages ("post:" +:+ id +:+ ":likes")).
Qed.

(** X13.  [getTimelinePostsInTimeInterval] answers with the posts whose
    time lies between [timeIntervalEnd] and [timeIntervalStart], both
    included, each once and from the latest to the earliest: the start of
    the interval is its upper end, and the answer is empty when it is
    below the end. *)
Theorem getTimelinePostsInTimeInterval_between
    (timelineId : string) (timeIntervalStart timeIntervalEnd : Z)
    (z : zset) (s : store) :
  zset_at s ("timeline:" +:+ timelineId +:+ ":posts") = Ok z →
  ∃ entries : list (string * Z),
    getTimelinePostsInTimeInterval timelineId timeIntervalStart timeIntervalEnd s
    = (s, Ok entries.*1) ∧
    StronglySorted (flip rank_le) entries ∧
    NoDup entries.*1 ∧
    (∀ post time, (post, time) ∈ entries ↔
       z !! post = Some time ∧ (timeIntervalEnd ≤ time ≤ timeIntervalStart)%Z) ∧
    ((timeIntervalStart < timeIntervalEnd)%Z → entries = []).
Proof.
  intros Hz. destruct (by_rank_reverse_spec z) as (Hsorted & Hnodup & Hin).
  set (inside := λ e : string * Z, (timeIntervalEnd ≤ e.2 ∧ e.2 ≤ timeIntervalStart)%Z).
  exists (filter inside (reverse (by_rank z))).
  split; [|split; [|split; [|split]]].
  - assert (Hrun : ∀ s0, getTimelinePostsInTimeInterval timelineId timeIntervalStart
                           timeIntervalEnd s0
                         = zrevrangebyscoreAsync ("timeline:" +:+ timelineId +:+ ":posts")
                             timeIntervalStart timeIntervalEnd s0) by reflexivity.
    rewrite Hrun. unfold zrevrangebyscoreAsync. by rewrite Hz.
  - by apply StronglySorted_filter.
  - apply NoDup_fmap_fst.
    + intros p n1 n2 H1 H2.
      apply list_elem_of_filter in H1 as [_ H1]. apply list_elem_of_filter in H2 as [_ H2].
      apply Hin in H1. apply Hin in H2. congruence.
    + apply NoDup_filter. apply (NoDup_fmap_1 fst). exact Hnodup.
  - intros post time. rewrite list_elem_of_filter, Hin. unfold inside. simpl.
    tauto.
  - intros Hempty.
    destruct (filter inside (reverse (by_rank z))) as [|[p n] l] eqn:E; [done|].
    assert (Hel : (p, n) ∈ filter inside (reverse (by_rank z)))
      by (rewrite E; left).
    apply list_elem_of_filter in Hel as [[? ?] _]. simpl in *. lia.
Qed.

Lemma score_present_null : score_present JNull = JNull.
Proof. reflexivity. Qed.

Lemma score_present_positive (n : Z) : (0 < n)%Z → score_present (JNum n) = JBool true.
Proof.
  intros Hn. unfold score_present, js_and, js_ge0. simpl.
  rewrite (proj2 (Z.eqb_neq n 0)) by lia. simpl.
  by rewrite (proj2 (Z.leb_le 0 n)) by lia.
Qed.

Lemma zset_at_zstore_other (dest key : string) (z : zset) (s : store) :
  key ≠ dest → zset_at (zstore dest z s) key = zset_at s key.
Proof. intros Hne. unfold zset_at. by rewrite zstore_other. Qed.

(** X14.  Removing a post from a timeline leaves the other posts with
    their times; the post is then reported as absent, with [null],
    whatever the client hands back for scores, and the key of a timeline
    that held this post only no longer exists. *)
Theorem removePostFromTimeline_removes
    (score_value : Z → jsval) (timelineId postId : string) (z : zset) (s : store) :
  zset_at s ("timeline:" +:+ timelineId +:+ ":posts") = Ok z →
  let s' := after (removePostFromTimeline timelineId postId) s in
  zset_at s' ("timeline:" +:+ timelineId +:+ ":posts") = Ok (delete postId z) ∧
  isPostPresentInTimeline score_value timelineId postId s' = (s', Ok JNull) ∧
  (dom z ⊆ {[ postId ]} → s' !! ("timeline:" +:+ timelineId +:+ ":posts") = None) ∧
  (∀ key, key ≠ "timeline:" +:+ timelineId +:+ ":posts" → s' !! key = s !! key).
Proof.
  intros Hz. simpl.
  set (key := "timeline:" +:+ timelineId +:+ ":posts").
  assert (Hs' : after (removePostFromTimeline timelineId postId) s =
                zstore key (delete postId z) s).
  { unfold after.
    change (removePostFromTimeline timelineId postId s) with (zremAsync key postId s).
    by rewrite (zremAsync_run key postId z s Hz). }
  rewrite Hs'. clear Hs'.
  split; [apply zset_at_zstore|]. split; [|split].
  - assert (Hpresent : ∀ s0, isPostPresentInTimeline score_value timelineId postId s0 =
              let (s1, r) := zscoreAsync score_value key postId s0 in
              match r with Ok v => (s1, Ok (score_present v)) | Err e => (s1, Err e) end)
      by reflexivity.
    rewrite Hpresent, (zscoreAsync_run score_value key postId (delete postId z))
      by apply zset_at_zstore.
    by rewrite lookup_delete_eq.
  - intros Hdom. unfold zstore. rewrite decide_True; [apply lookup_delete_eq|].
    apply map_empty. intros p. destruct (decide (p = postId)) as [->|Hne].
    + apply lookup_delete_eq.
    + rewrite lookup_delete_ne by done. apply not_elem_of_dom. set_solver.
  - intros k Hne. by apply zstore_other.
Qed.

(** X15.  The methods that delete a subscription request take the two
    accounts in the opposite order of the methods that create it.  After
    [createUserSubscriptionRequest a t b], with [t] positive and a client
    that hands back numbers, the request of [a] to [b] is present, and it
    is [deleteUserSubscriptionRequest b a] that removes it; the pending
    request that [createUserSubscriptionPendingRequest a t b] records for
    [a] is likewise removed by [deleteUserSubscriptionPendingRequest b a]. *)
Theorem subscription_request_roles
    (a b : string) (t : Z) (requests pending : zset) (s : store) :
  (0 < t)%Z →
  zset_at s ("user:" +:+ b +:+ ":requests") = Ok requests →
  zset_at s ("user:" +:+ a +:+ ":pending") = Ok pending →
  let s1 := after (createUserSubscriptionRequest a t b) s in
  let s2 := after (deleteUserSubscriptionRequest b a) s1 in
  let p1 := after (createUserSubscriptionPendingRequest a t b) s in
  let p2 := after (deleteUserSubscriptionPendingRequest b a) p1 in
  isSubscriptionRequestPresent number_reply a b s1 = (s1, Ok (JBool true)) ∧
  zset_at s2 ("user:" +:+ b +:+ ":requests") = Ok (delete a requests) ∧
  isSubscriptionRequestPresent number_reply a b s2 = (s2, Ok JNull) ∧
  zset_at p1 ("user:" +:+ a +:+ ":pending") = Ok (<[b := t]> pending) ∧
  zset_at p2 ("user:" +:+ a +:+ ":pending") = Ok (delete b pending).
Proof.
  intros Ht Hreq Hpend. simpl.
  set (rkey := "user:" +:+ b +:+ ":requests").
  set (pkey := "user:" +:+ a +:+ ":pending").
  assert (Hpresent : ∀ s0, isSubscriptionRequestPresent number_reply a b s0 =
            let (s1, r) := zscoreAsync number_reply rkey a s0 in
            match r with Ok v => (s1, Ok (score_present v)) | Err e => (s1, Err e) end)
    by reflexivity.
  assert (Hs1 : after (createUserSubscriptionRequest a t b) s =
                <[rkey := VZSet (<[a := t]> requests)]> s).
  { unfold after.
    change (createUserSubscriptionRequest a t b s) with (zaddAsync rkey t a s).
    by rewrite (zaddAsync_run rkey t a requests s Hreq). }
  assert (Hs2 : ∀ s0 z0, zset_at s0 rkey = Ok z0 →
                  after (deleteUserSubscriptionRequest b a) s0 = zstore rkey (delete a z0) s0).
  { intros s0 z0 Hz0. unfold after.
    change (deleteUserSubscriptionRequest b a s0) with (zremAsync rkey a s0).
    by rewrite (zremAsync_run rkey a z0 s0 Hz0). }
  assert (Hp1 : after (createUserSubscriptionPendingRequest a t b) s =
                <[pkey := VZSet (<[b := t]> pending)]> s).
  { unfold after.
    change (createUserSubscriptionPendingRequest a t b s) with (zaddAsync pkey t b s).
    by rewrite (zaddAsync_run pkey t b pending s Hpend). }
  assert (Hp2 : ∀ s0 z0, zset_at s0 pkey = Ok z0 →
                  after (deleteUserSubscriptionPendingRequest b a) s0
                  = zstore pkey (delete b z0) s0).
  { intros s0 z0 Hz0. unfold after.
    change (deleteUserSubscriptionPendingRequest b a s0) with (zremAsync pkey b s0).
    by rewrite (zremAsync_run pkey b z0 s0 Hz0). }
  rewrite Hs1, Hp1.
  rewrite (Hs2 _ (<[a := t]> requests)) by apply zset_at_insert.
  rewrite (Hp2 _ (<[b := t]> pending)) by apply zset_at_insert.
  rewrite !delete_insert_eq.
  split; [|split; [|split; [|split]]].
  - rewrite Hpresent, (zscoreAsync_run _ rkey a (<[a := t]> requests))
      by apply zset_at_insert.
    rewrite lookup_insert_eq. simpl. by rewrite score_present_positive.
  - apply zset_at_zstore.
  - rewrite Hpresent, (zscoreAsync_run _ rkey a (delete a requests))
      by apply zset_at_zstore.
    by rewrite lookup_delete_eq.
  - apply zset_at_insert.
  - apply zset_at_zstore.
Qed.

(** X16.  A like given at a positive time is reported by
    [hasUserLikedPost] and [getUserPostLikedTime], with a client that
    hands back numbers, and counted once by [getPostLikesCount] however
    often it is given; after [removeUserPostLike] the user has not liked
    the post and the count is back where it was without the like. *)
Theorem like_lifecycle
    (postId userId : string) (now now' : Z) (z : zset) (s : store) :
  (0 < now)%Z →
  zset_at s ("post:" +:+ postId +:+ ":likes") = Ok z →
  let s1 := after (createUserPostLike now postId userId) s in
  let s2 := after (createUserPostLike now' postId userId) s1 in
  let s3 := after (removeUserPostLike postId userId) s2 in
  let liked_count := (Z.of_nat (size (delete userId z)) + 1)%Z in
  hasUserLikedPost number_reply userId postId s1 = (s1, Ok (JBool true)) ∧
  getUserPostLikedTime number_reply userId postId s1 = (s1, Ok (JNum now)) ∧
  getPostLikesCount postId s1 = (s1, Ok liked_count) ∧
  getPostLikesCount postId s2 = (s2, Ok liked_count) ∧
  hasUserLikedPost number_reply userId postId s3 = (s3, Ok JNull) ∧
  getPostLikesCount postId s3 = (s3, Ok (liked_count - 1)%Z).
Proof.
  intros Hnow Hz. simpl.
  set (key := "post:" +:+ postId +:+ ":likes").
  assert (Hliked : ∀ s0, hasUserLikedPost number_reply userId postId s0 =
            let (s1, r) := zscoreAsync number_reply key userId s0 in
            match r with Ok v => (s1, Ok (score_present v)) | Err e => (s1, Err e) end)
    by reflexivity.
  assert (Htime : ∀ s0, getUserPostLikedTime number_reply userId postId s0 =
                        zscoreAsync number_reply key userId s0) by reflexivity.
  assert (Hcount : ∀ s0, getPostLikesCount postId s0 = zcardAsync key s0) by reflexivity.
  assert (Hlike : ∀ t s0 z0, zset_at s0 key = Ok z0 →
             after (createUserPostLike t postId userId) s0
             = <[key := VZSet (<[userId := t]> z0)]> s0).
  { intros t s0 z0 Hz0. unfold after.
    change (createUserPostLike t postId userId s0) with (zaddAsync key t userId s0).
    by rewrite (zaddAsync_run key t userId z0 s0 Hz0). }
  assert (Hunlike : ∀ s0 z0, zset_at s0 key = Ok z0 →
             after (removeUserPostLike postId userId) s0 = zstore key (delete userId z0) s0).
  { intros s0 z0 Hz0. unfold after.
    change (removeUserPostLike postId userId s0) with (zremAsync key userId s0).
    by rewrite (zremAsync_run key userId z0 s0 Hz0). }
  assert (Hsize : ∀ t, Z.of_nat (size (<[userId := t]> z))
                       = (Z.of_nat (size (delete userId z)) + 1)%Z).
  { intros t. rewrite <- (insert_delete_eq z).
    rewrite map_size_insert_None by apply lookup_delete_eq. lia. }
  rewrite (Hlike now s z Hz).
  rewrite (Hlike now' _ (<[userId := now]> z)) by apply zset_at_insert.
  rewrite !insert_insert_eq.
  rewrite (Hunlike _ (<[userId := now']> z)) by apply zset_at_insert.
  rewrite delete_insert_eq.
  split; [|split; [|split; [|split; [|split]]]].
  - rewrite Hliked, (zscoreAsync_run _ key userId (<[userId := now]> z))
      by apply zset_at_insert.
    rewrite lookup_insert_eq. simpl. by rewrite score_present_positive.
  - rewrite Htime, (zscoreAsync_run _ key userId (<[userId := now]> z))
      by apply zset_at_insert.
    by rewrite lookup_insert_eq.
  - rewrite Hcount, (zcardAsync_run key (<[userId := now]> z)) by apply zset_at_insert.
    by rewrite Hsize.
  - rewrite Hcount, (zcardAsync_run key (<[userId := now']> z)) by apply zset_at_insert.
    by rewrite Hsize.
  - rewrite Hliked, (zscoreAsync_run _ key userId (delete userId z))
      by apply zset_at_zstore.
    by rewrite lookup_delete_eq.
  - rewrite Hcount, (zcardAsync_run key (delete userId z)) by apply zset_at_zstore.
    do 2 f_equal. lia.
Qed.

(** X17.  [changeUserStats] adds to the rank of an account in a
    leaderboard, starting from 0 for an account that has none: two changes
    leave the store that one change by the sum leaves, while
    [addUserLikesStats] sets the rank whatever it was. *)
Theorem changeUserStats_accumulates
    (score_value : Z → jsval) (userId property : string) (v1 v2 likes : Z)
    (z : zset) (s : store) :
  zset_at s ("stats:" +:+ property) = Ok z →
  let rank := default 0%Z (z !! userId) in
  changeUserStats score_value userId property v1 s =
  (<["stats:" +:+ property := VZSet (<[userId := (rank + v1)%Z]> z)]> s,
   Ok (score_value (rank + v1)%Z)) ∧
  after (changeUserStats score_value userId property v2)
    (after (changeUserStats score_value userId property v1) s)
  = after (changeUserStats score_value userId property (v1 + v2)%Z) s ∧
  (property = "likes" →
   zset_at (after (addUserLikesStats userId likes) s) "stats:likes"
   = Ok (<[userId := likes]> z)).
Proof.
  intros Hz. simpl.
  set (key := "stats:" +:+ property).
  assert (Hchange : ∀ v s0 z0, zset_at s0 key = Ok z0 →
            changeUserStats score_value userId property v s0 =
            (<[key := VZSet (<[userId := (default 0 (z0 !! userId) + v)%Z]> z0)]> s0,
             Ok (score_value (default 0 (z0 !! userId) + v)%Z))).
  { intros v s0 z0 Hz0.
    change (changeUserStats score_value userId property v s0)
      with (zincrbyAsync score_value key v userId s0).
    unfold zincrbyAsync. by rewrite Hz0. }
  split; [by apply Hchange|]. split.
  - unfold after. rewrite !(Hchange _ s z Hz). simpl.
    rewrite (Hchange v2 _ (<[userId := (default 0 (z !! userId) + v1)%Z]> z))
      by apply zset_at_insert.
    simpl. rewrite lookup_insert_eq. simpl.
    rewrite !insert_insert_eq. do 3 f_equal. lia.
  - intros ->. unfold after.
    change (addUserLikesStats userId likes s) with (zaddAsync "stats:likes" likes userId s).
    rewrite (zaddAsync_run "stats:likes" likes userId z s Hz). simpl.
    apply zset_at_insert.
Qed.

(** ** Composed timelines *)

Lemma intersection_run (uuid timelineId1 timelineId2 : string) (z1 z2 : zset)
    (s : store) :
  zset_at s ("timeline:" +:+ timelineId1 +:+ ":posts") = Ok z1 →
  zset_at s ("timeline:" +:+ timelineId2 +:+ ":posts") = Ok z2 →
  getTimelinesIntersectionPostIds uuid timelineId1 timelineId2 s =
  (delete ("timeline:" +:+ timelineId1 +:+ ":random:" +:+ uuid) s,
   Ok (by_rank (intersection_with aggregate_max z2 z1)).*1).
Proof.
  intros H1 H2.
  unfold getTimelinesIntersectionPostIds, _getPostsTimelinesIntersection,
    _getTimelinesIntersectionPosts, _deleteRecord, zinterstoreAsync,
    zrangeAsync, delAsync.
  run. norm_keys.
  rewrite (zsource_of_zset _ _ _ H1), (zsource_of_zset _ _ _ H2).
  rewrite zset_at_zstore, index_range_all.
  by rewrite delete_zstore.
Qed.

Lemma merge_run (dest src1 src2 : string) (z1 z2 : zset) (s : store) :
  zset_at s ("timeline:" +:+ src1 +:+ ":posts") = Ok z1 →
  zset_at s ("timeline:" +:+ src2 +:+ ":posts") = Ok z2 →
  createMergedPostsTimeline dest src1 src2 s =
  (zstore ("timeline:" +:+ dest +:+ ":posts") (union_with aggregate_max z1 z2) s,
   Ok (Z.of_nat (size (union_with aggregate_max z1 z2)))).
Proof.
  intros H1 H2. unfold createMergedPostsTimeline, zunionstoreAsync. run. norm_keys.
  by rewrite (zsource_of_zset _ _ _ H1), (zsource_of_zset _ _ _ H2).
Qed.

Lemma aggregate_max_comm (x y : Z) : aggregate_max x y = aggregate_max y x.
Proof. unfold aggregate_max. f_equal. lia. Qed.

(** X18.  The intersection of two timelines does not depend on the order
    in which they are given nor on the temporary key: both calls answer
    the same list.  When the temporary key does not exist beforehand the
    call leaves the store exactly as it found it, and the intersection of
    a timeline with itself lists all its posts, in the reverse order of
    [getTimelinePostsRange]. *)
Theorem intersection_is_symmetric_and_traceless
    (uuid uuid' timelineId1 timelineId2 : string) (z1 z2 : zset) (s : store) :
  zset_at s ("timeline:" +:+ timelineId1 +:+ ":posts") = Ok z1 →
  zset_at s ("timeline:" +:+ timelineId2 +:+ ":posts") = Ok z2 →
  (getTimelinesIntersectionPostIds uuid timelineId1 timelineId2 s).2
  = (getTimelinesIntersectionPostIds uuid' timelineId2 timelineId1 s).2 ∧
  (s !! ("timeline:" +:+ timelineId1 +:+ ":random:" +:+ uuid) = None →
   (getTimelinesIntersectionPostIds uuid timelineId1 timelineId2 s).1 = s) ∧
  (∃ posts,
     (getTimelinesIntersectionPostIds uuid timelineId1 timelineId1 s).2 = Ok posts ∧
     (getTimelinePostsRange timelineId1 0 (-1) s).2 = Ok (reverse posts)).
Proof.
  intros H1 H2.
  assert (Hrange : getTimelinePostsRange timelineId1 0 (-1) s
                   = (s, Ok (reverse (by_rank z1)).*1)).
  { change (getTimelinePostsRange timelineId1 0 (-1) s)
      with (zrevrangeAsync ("timeline:" +:+ timelineId1 +:+ ":posts") 0 (-1) s).
    by apply zrevrangeAsync_all. }
  rewrite Hrange.
  rewrite (intersection_run uuid _ _ z1 z2 s H1 H2).
  rewrite (intersection_run uuid' _ _ z2 z1 s H2 H1). simpl.
  split; [|split].
  - do 3 f_equal. apply fin_maps.intersection_with_comm. intros. apply aggregate_max_comm.
  - intros Hfresh. by apply delete_id.
  - rewrite (intersection_run uuid _ _ z1 z1 s H1 H1). simpl.
    assert (Hself : intersection_with aggregate_max z1 z1 = z1).
    { apply map_eq. intros p. rewrite lookup_intersection_with.
      destruct (z1 !! p); simpl; [|done]. unfold aggregate_max. f_equal. lia. }
    rewrite Hself. eexists. split; [reflexivity|].
    by rewrite fmap_reverse.
Qed.

(** X19.  Merging does not depend on the order of the two sources: the
    store and the reply are the same.  Merging a timeline with itself
    copies its posts and times to the destination, and a timeline that is
    also the destination keeps its posts and gains those of the other
    source. *)
Theorem merge_is_symmetric
    (dest src1 src2 : string) (z1 z2 : zset) (s : store) :
  zset_at s ("timeline:" +:+ src1 +:+ ":posts") = Ok z1 →
  zset_at s ("timeline:" +:+ src2 +:+ ":posts") = Ok z2 →
  createMergedPostsTimeline dest src1 src2 s = createMergedPostsTimeline dest src2 src1 s ∧
  zset_at (after (createMergedPostsTimeline dest src1 src1) s)
    ("timeline:" +:+ dest +:+ ":posts") = Ok z1 ∧
  (∃ merged,
     zset_at (after (createMergedPostsTimeline src1 src1 src2) s)
       ("timeline:" +:+ src1 +:+ ":posts") = Ok merged ∧
     dom merged = dom z1 ∪ dom z2 ∧
     ∀ post time, z1 !! post = Some time →
                  ∃ time', merged !! post = Some time' ∧ (time ≤ time')%Z).
Proof.
  intros H1 H2. unfold after.
  rewrite (merge_run dest src1 src2 z1 z2 s H1 H2).
  rewrite (merge_run dest src2 src1 z2 z1 s H2 H1).
  rewrite (merge_run dest src1 src1 z1 z1 s H1 H1).
  rewrite (merge_run src1 src1 src2 z1 z2 s H1 H2). simpl.
  assert (Hcomm : union_with aggregate_max z1 z2 = union_with aggregate_max z2 z1).
  { apply fin_maps.union_with_comm. intros. apply aggregate_max_comm. }
  split; [by rewrite Hcomm|]. split.
  - rewrite zset_at_zstore. f_equal.
    apply map_eq. intros p. rewrite lookup_union_with.
    destruct (z1 !! p); simpl; [|done]. unfold aggregate_max. f_equal. lia.
  - exists (union_with aggregate_max z1 z2). split; [apply zset_at_zstore|]. split.
    + apply set_eq. intros p. rewrite elem_of_union, !elem_of_dom.
      rewrite lookup_union_with. unfold is_Some.
      destruct (z1 !! p) as [x|], (z2 !! p) as [y|]; simpl; split;
        try (intros [n Hn]; discriminate Hn);
        try (intros [[n Hn]|[n Hn]]; discriminate Hn);
        eauto.
    + intros post time Hpost. rewrite lookup_union_with, Hpost.
      destruct (z2 !! post) as [y|]; simpl.
      * exists (Z.max time y). split; [done | lia].
      * exists time. split; [done | lia].
Qed.

(** ** Sets and lists of a post *)

Lemma set_at_insert (key : string) (x : gset string) (s : store) :
  set_at (<[key := VSet x]> s) key = Ok x.
Proof. unfold set_at. by rewrite lookup_insert_eq. Qed.

Lemma saddAsync_run (key : string) (m : string) (members : list string)
    (x : gset string) (s : store) :
  set_at s key = Ok x →
  saddAsync key (m :: members) s =
  (<[key := VSet (x ∪ list_to_set (m :: members))]> s,
   Ok (Z.of_nat (size (list_to_set (m :: members) ∖ x)))).
Proof. intros Hx. unfold saddAsync. by rewrite Hx. Qed.

Lemma smembersAsync_run (key : string) (x : gset string) (s : store) :
  set_at s key = Ok x → smembersAsync key s = (s, Ok (elements x)).
Proof. intros Hx. unfold smembersAsync. by rewrite Hx. Qed.

(** X20.  The timelines a post is used in form a set: after
    [createPostUsageInTimeline] the timeline is among them, each timeline
    is listed once, and recording the same usage again changes nothing;
    [deletePostUsageInTimeline] takes the timeline out and leaves the
    others. *)
Theorem post_usages_form_a_set
    (postId timelineId : string) (x : gset string) (s : store) :
  set_at s ("post:" +:+ postId +:+ ":timelines") = Ok x →
  let s1 := after (createPostUsageInTimeline postId timelineId) s in
  (∃ members,
     getPostUsagesInTimelines postId s1 = (s1, Ok members) ∧
     NoDup members ∧
     (∀ t, t ∈ members ↔ t ∈ x ∨ t = timelineId) ∧
     getPostUsagesInTimelinesCount postId s1 = (s1, Ok (Z.of_nat (length members)))) ∧
  after (createPostUsageInTimeline postId timelineId) s1 = s1 ∧
  set_at (after (deletePostUsageInTimeline postId timelineId) s1)
    ("post:" +:+ postId +:+ ":timelines") = Ok (x ∖ {[ timelineId ]}).
Proof.
  intros Hx. simpl.
  set (key := "post:" +:+ postId +:+ ":timelines").
  assert (Hadd : ∀ s0 x0, set_at s0 key = Ok x0 →
            after (createPostUsageInTimeline postId timelineId) s0
            = <[key := VSet (x0 ∪ {[ timelineId ]})]> s0).
  { intros s0 x0 Hx0. unfold after.
    change (createPostUsageInTimeline postId timelineId s0)
      with (saddAsync key [timelineId] s0).
    rewrite (saddAsync_run key timelineId [] x0 s0 Hx0). simpl.
    by rewrite (right_id_L ∅ (∪)). }
  rewrite (Hadd s x Hx).
  split; [|split].
  - exists (elements (x ∪ {[ timelineId ]})).
    change (getPostUsagesInTimelines postId) with (smembersAsync key).
    change (getPostUsagesInTimelinesCount postId) with (scardAsync key).
    rewrite (smembersAsync_run key (x ∪ {[ timelineId ]})) by apply set_at_insert.
    split; [done|]. split; [apply NoDup_elements|]. split.
    + intros t. by rewrite elem_of_elements, elem_of_union, elem_of_singleton.
    + unfold scardAsync. by rewrite set_at_insert.
  - rewrite (Hadd _ (x ∪ {[ timelineId ]})) by apply set_at_insert.
    rewrite insert_insert_eq.
    by rewrite <- (assoc_L (∪)), (idemp_L (∪)).
  - unfold after.
    change (deletePostUsageInTimeline postId timelineId) with (sremAsync key timelineId).
    unfold sremAsync. rewrite set_at_insert. simpl.
    assert (Hrest : (x ∪ {[ timelineId ]}) ∖ {[ timelineId ]} = x ∖ {[ timelineId ]})
      by (by rewrite difference_union_distr_l_L, difference_diag_L, (right_id_L ∅ (∪))).
    rewrite Hrest. unfold set_at. case_decide as Hempty.
    + by rewrite lookup_delete_eq, Hempty.
    + by rewrite lookup_insert_eq.
Qed.

(** X21.  [createPostPostedTo] records all the given timelines as
    destinations of the post; with no timeline at all the store rejects
    the command and nothing is recorded. *)
Theorem posted_to_records_every_destination
    (postId : string) (timelineIds : list string) (x : gset string) (s : store) :
  set_at s ("post:" +:+ postId +:+ ":to") = Ok x →
  (timelineIds = [] → createPostPostedTo postId timelineIds s = (s, Err WrongArity)) ∧
  (timelineIds ≠ [] →
   let s1 := after (createPostPostedTo postId timelineIds) s in
   ∃ members,
     getPostPostedToIds postId s1 = (s1, Ok members) ∧
     NoDup members ∧
     ∀ t, t ∈ members ↔ t ∈ x ∨ t ∈ timelineIds).
Proof.
  intros Hx. set (key := "post:" +:+ postId +:+ ":to").
  split.
  - by intros ->.
  - intros Hne. destruct timelineIds as [|t0 ts]; [done|]. simpl.
    assert (Hs1 : after (createPostPostedTo postId (t0 :: ts)) s
                  = <[key := VSet (x ∪ list_to_set (t0 :: ts))]> s).
    { unfold after.
      change (createPostPostedTo postId (t0 :: ts) s) with (saddAsync key (t0 :: ts) s).
      by rewrite (saddAsync_run key t0 ts x s Hx). }
    rewrite Hs1. exists (elements (x ∪ list_to_set (t0 :: ts))).
    change (getPostPostedToIds postId) with (smembersAsync key).
    rewrite (smembersAsync_run key (x ∪ list_to_set (t0 :: ts))) by apply set_at_insert.
    split; [done|]. split; [apply NoDup_elements|].
    intros t. rewrite elem_of_elements, elem_of_union, elem_of_list_to_set. done.
Qed.

Lemma list_at_insert (key : string) (l : list string) (s : store) :
  list_at (<[key := VList l]> s) key = Ok l.
Proof. unfold list_at. by rewrite lookup_insert_eq. Qed.

Lemma rpushAsync_run (key v : string) (l : list string) (s : store) :
  list_at s key = Ok l →
  rpushAsync key v s = (<[key := VList (l ++ [v])%list]> s, Ok (Z.of_nat (length l) + 1)%Z).
Proof. intros Hl. unfold rpushAsync. by rewrite Hl. Qed.

Lemma lremAsync_list (key : string) (count : Z) (v : string) (l : list string)
    (s : store) :
  list_at s key = Ok l →
  list_at (after (lremAsync key count v) s) key = Ok (lrem count v l) ∧
  (lremAsync key count v s).2
  = Ok (Z.of_nat (length l) - Z.of_nat (length (lrem count v l)))%Z ∧
  (lrem count v l = [] → after (lremAsync key count v) s !! key = None).
Proof.
  intros Hl. unfold after, lremAsync. rewrite Hl. simpl.
  split; [|split; [done|]].
  - unfold list_at. case_decide as Hempty.
    + by rewrite lookup_delete_eq, Hempty.
    + by rewrite lookup_insert_eq.
  - intros Hempty. rewrite decide_True by done. apply lookup_delete_eq.
Qed.

Lemma remove_first_occurrence (v : string) (l1 l2 : list string) :
  v ∉ l1 → remove_occurrences 1 v (l1 ++ v :: l2)%list = (l1 ++ l2)%list.
Proof.
  induction l1 as [|x l1 IH]; intros Hnotin; simpl.
  - rewrite decide_True by done. by destruct l2.
  - apply not_elem_of_cons in Hnotin as [Hne Hnotin].
    rewrite decide_False by done. by rewrite IH.
Qed.

Lemma remove_absent (n : nat) (v : string) (l : list string) :
  v ∉ l → remove_occurrences n v l = l.
Proof.
  revert n. induction l as [|x l IH]; intros n Hnotin; [done|].
  apply not_elem_of_cons in Hnotin as [Hne Hnotin]. simpl.
  destruct n; [done|]. rewrite decide_False by done. by rewrite IH.
Qed.

(** X22.  Comments and attachments are appended at the tail: after
    [addCommentToPost] the comments of the post are the earlier ones
    followed by the new one and their count is one more, and likewise
    [getPostAttachments] after [addAttachmentToPost]. *)
Theorem comments_and_attachments_are_appended
    (postId id : string) (l : list string) (s : store) :
  (list_at s ("post:" +:+ postId +:+ ":comments") = Ok l →
   let s1 := after (addCommentToPost postId id) s in
   addCommentToPost postId id s = (s1, Ok (Z.of_nat (length l) + 1)%Z) ∧
   getPostCommentsRange postId 0 (-1) s1 = (s1, Ok (l ++ [id])%list) ∧
   getPostCommentsCount postId s1 = (s1, Ok (Z.of_nat (length l) + 1)%Z)) ∧
  (list_at s ("post:" +:+ postId +:+ ":attachments") = Ok l →
   let s1 := after (addAttachmentToPost postId id) s in
   getPostAttachments postId s1 = (s1, Ok (l ++ [id])%list)).
Proof.
  split; intros Hl; simpl; unfold after.
  - set (key := "post:" +:+ postId +:+ ":comments") in *.
    change (addCommentToPost postId id s) with (rpushAsync key id s).
    rewrite (rpushAsync_run key id l s Hl). simpl.
    split; [done|]. split.
    + change (getPostCommentsRange postId 0 (-1)) with (lrangeAsync key 0 (-1)).
      unfold lrangeAsync. by rewrite list_at_insert, index_range_all.
    + change (getPostCommentsCount postId) with (llenAsync key).
      unfold llenAsync. rewrite list_at_insert, length_app. simpl.
      do 2 f_equal. lia.
  - set (key := "post:" +:+ postId +:+ ":attachments") in *.
    change (addAttachmentToPost postId id s) with (rpushAsync key id s).
    rewrite (rpushAsync_run key id l s Hl). simpl.
    change (getPostAttachments postId) with (lrangeAsync key 0 (-1)).
    unfold lrangeAsync. by rewrite list_at_insert, index_range_all.
Qed.

(** X23.  [removeCommentFromPost] takes out the first occurrence of the
    comment and no other: the comments before and after it keep their
    order, a later duplicate stays, and a comment that is not in the list
    leaves it as it is.  [removeAttachmentsFromPost] takes out every
    occurrence of the attachment and keeps the others in order.  The key
    of a list that becomes empty no longer exists. *)
Theorem removals_from_the_lists_of_a_post
    (postId id : string) (l : list string) (s : store) :
  (list_at s ("post:" +:+ postId +:+ ":comments") = Ok l →
   let s1 := after (removeCommentFromPost postId id) s in
   (id ∉ l →
    list_at s1 ("post:" +:+ postId +:+ ":comments") = Ok l ∧
    (removeCommentFromPost postId id s).2 = Ok 0%Z) ∧
   (∀ before rest, l = (before ++ id :: rest)%list → id ∉ before →
      list_at s1 ("post:" +:+ postId +:+ ":comments") = Ok (before ++ rest)%list ∧
      (removeCommentFromPost postId id s).2 = Ok 1%Z) ∧
   (l = [id] → s1 !! ("post:" +:+ postId +:+ ":comments") = None)) ∧
  (list_at s ("post:" +:+ postId +:+ ":attachments") = Ok l →
   let s1 := after (removeAttachmentsFromPost postId id) s in
   ∃ kept,
     list_at s1 ("post:" +:+ postId +:+ ":attachments") = Ok kept ∧
     kept = filter (λ x, x ≠ id) l ∧
     (id ∉ kept) ∧
     (∀ x, x ≠ id → x ∈ kept ↔ x ∈ l)).
Proof.
  split; intros Hl; simpl.
  - set (key := "post:" +:+ postId +:+ ":comments") in *.
    change (removeCommentFromPost postId id) with (lremAsync key 1 id).
    destruct (lremAsync_list key 1 id l s Hl) as (Hlist & Hreply & Hgone).
    change (lrem 1 id l) with (remove_occurrences 1 id l) in *.
    split; [|split].
    + intros Hnotin. rewrite (remove_absent 1 id l Hnotin) in *.
      split; [done|]. rewrite Hreply. f_equal. lia.
    + intros before rest -> Hnotin.
      rewrite (remove_first_occurrence id before rest Hnotin) in *.
      split; [done|]. rewrite Hreply. f_equal.
      rewrite !length_app. simpl. lia.
    + intros ->. apply Hgone. simpl. by rewrite decide_True.
  - set (key := "post:" +:+ postId +:+ ":attachments") in *.
    change (removeAttachmentsFromPost postId id) with (lremAsync key 0 id).
    destruct (lremAsync_list key 0 id l s Hl) as (Hlist & _ & _).
    change (lrem 0 id l) with (filter (λ x, x ≠ id) l) in *.
    exists (filter (λ x, x ≠ id) l). split; [done|]. split; [done|]. split.
    + rewrite list_elem_of_filter. by intros [? _].
    + intros x Hne. rewrite list_elem_of_filter. tauto.
Qed.

(** ** Edge cases of the creations *)

(** X24.  A creation with an empty payload is rejected by the store.
    For a post, a comment and an attachment nothing is written.
    [createUserDiscussionsTimeline] fails in the same way, but has by
    then written the name of the timeline (the text of [undefined], the
    payload having no name) under the timelines of the account, while no
    record of the timeline exists. *)
Theorem creation_with_empty_payload
    (uuid userId : string) (h : fields) (s : store) :
  s !! ("post:" +:+ uuid) = None →
  s !! ("comment:" +:+ uuid) = None →
  s !! ("attachment:" +:+ uuid) = None →
  s !! ("timeline:" +:+ userId) = None →
  record_at s ("user:" +:+ userId +:+ ":timelines") = Ok h →
  createPost uuid ∅ s = (s, Err WrongArity) ∧
  createComment uuid ∅ s = (s, Err WrongArity) ∧
  createAttachment uuid ∅ s = (s, Err WrongArity) ∧
  let s1 := <["user:" +:+ userId +:+ ":timelines" :=
                VHash (<["undefined" := userId]> h)]> s in
  createUserDiscussionsTimeline userId ∅ s = (s1, Err WrongArity) ∧
  s1 !! ("timeline:" +:+ userId) = None.
Proof.
  intros Hpost Hcomment Hattachment Htimeline Hrec.
  split; [|split; [|split]].
  - unfold createPost, _existsRecord, _createRecord. run. norm_keys.
    by rewrite Hpost.
  - unfold createComment, _existsRecord, _createRecord. run. norm_keys.
    by rewrite Hcomment.
  - unfold createAttachment, _existsRecord, _createRecord. run. norm_keys.
    by rewrite Hattachment.
  - simpl. split.
    + unfold createUserDiscussionsTimeline, getUserDiscussionsTimelineId,
        _createTimeline, _createUserTimeline, _existsRecord, _createRecord.
      run. norm_keys. rewrite Htimeline. simpl.
      rewrite (hmsetAsync_record _ _ h)
        by (assumption || apply map_non_empty_singleton).
      simpl. rewrite <- (insert_union_singleton_l h). reflexivity.
    + rewrite lookup_insert_ne by discriminate. assumption.
Qed.

(** X25.  [createUser] with a payload that has no [username] fails on
    the key of the username index, before anything is written: neither
    the record nor the email index of the payload's [email] exists
    afterwards. *)
Theorem createUser_without_username_writes_nothing
    (uuid : string) (payload : fields) (s : store) :
  payload !! "username" = None →
  s !! ("user:" +:+ uuid) = None →
  createUser uuid payload s = (s, Err KeysShouldBeStrings).
Proof.
  intros Hu Hkey.
  unfold createUser, _createUserUsernameIndex, _existsRecord. rewrite Hu.
  run. norm_keys. rewrite Hkey. reflexivity.
Qed.


(** * The further properties on the example data *)

Lemma keys_of_one_account_differ :
  mkKey [JStr "user"; JStr "u1"; JStr "timelines"]
  ≠ mkKey [JStr "user"; JStr "u1"; JStr "requests"].
Proof.
  apply (mkKey_injective_without_sep ["user"; "u1"; "timelines"]
           ["user"; "u1"; "requests"]);
    [discriminate | discriminate | repeat constructor | repeat constructor
    | discriminate].
Defined.

Lemma hello_is_read_back :
  getPostById "p1" tt posted =
  (posted, Ok (Some (initObjectWith Post (Some (ObjFields hello)) (JStr "p1") tt))).
Proof.
  apply (created_record_is_read_back "p1" hello tt ∅).
  - apply insert_non_empty.
  - reflexivity.
Defined.

Lemma p1_is_taken :
  createPost "p1" bye posted = (posted, Err AlreadyExists).
Proof.
  destruct (created_id_is_taken "p1") as (_ & Hpost & _).
  apply (Hpost hello bye ∅ posted "p1"). vm_compute; reflexivity.
Defined.

Lemma bye_replaces_the_body_only :
  updatePost "p1" bye posted =
  (<["post:p1" := VHash {[ "body" := "bye"; "createdAt" := "1" ]}]> posted, Ok tt).
Proof.
  destruct (updates_merge_or_create "p1") as (_ & Hpost & _).
  rewrite (Hpost bye hello posted).
  - vm_compute; reflexivity.
  - apply map_non_empty_singleton.
  - vm_compute; reflexivity.
Defined.

Lemma p1_updated_at_2 :
  setPostUpdatedAt "p1" "2" posted =
  (<["post:p1" := VHash (<["updatedAt" := "2"]> hello)]> posted, Ok tt).
Proof.
  apply (proj1 (single_field_updates "p1" "2" hello posted)).
  vm_compute; reflexivity.
Defined.

Lemma p1_deleted_and_created_again :
  getPostById "p1" tt (after (deletePost "p1") posted)
  = (after (deletePost "p1") posted, Ok None) ∧
  createPost "p1" bye (after (deletePost "p1") posted)
  = (<["post:p1" := VHash bye]> (after (deletePost "p1") posted), Ok "p1").
Proof.
  destruct (deletePost_removes_only_the_record "p1" posted) as (Hgone & Hfree & _).
  split.
  - apply Hgone.
  - apply Hfree, map_non_empty_singleton.
Defined.

Lemma posts_p2_and_p1 :
  ∃ objects,
    getPostsByIds ["p2"; "p1"] tt posted = (posted, Ok objects) ∧
    length objects = 2%nat ∧
    (∃ o, objects !! 0%nat = Some o ∧ spread_id o = JStr "p2" ∧ spread_attrs o = None) ∧
    (∃ o, objects !! 1%nat = Some o ∧ spread_id o = JStr "p1" ∧
          spread_attrs o = Some (ObjFields hello)).
Proof.
  destruct (models_by_ids_give_one_instance_per_id ["p2"; "p1"] tt posted)
    as (_ & (objects & Hrun & Hlen & Hat) & _).
  exists objects. split; [exact Hrun|]. split; [exact Hlen|]. split.
  - destruct (Hat 0%nat "p2" eq_refl) as (o & Ho & _ & Hid & _ & Hnone & _).
    exists o. split; [exact Ho|]. split; [exact Hid|].
    apply Hnone. vm_compute; reflexivity.
  - destruct (Hat 1%nat "p1" eq_refl) as (o & Ho & _ & Hid & _ & _ & Hsome).
    exists o. split; [exact Ho|]. split; [exact Hid|].
    apply Hsome. vm_compute; reflexivity.
Defined.

Lemma bob_email_in_any_case :
  getUserIdByEmail "bob@example.ORG" (after (createUserEmailIndex "u2" "Bob@Example.org") ∅)
  = (after (createUserEmailIndex "u2" "Bob@Example.org") ∅, Ok (Some "u2")).
Proof.
  apply (email_index_ignores_case "u2" "Bob@Example.org" "bob@example.ORG" ∅).
  reflexivity.
Defined.

Lemma bob_found_by_email :
  getUserByEmail tagged_union "BOB@example.org" (after (createUser "u2" bob) ∅) =
  (after (createUser "u2" bob) ∅,
   Ok (Some (initObject User (ObjFields bob) (JStr "u2")))).
Proof.
  apply (created_user_is_found_by_email tagged_union "u2" "Bob@Example.org"
           "BOB@example.org" bob ∅).
  - vm_compute; reflexivity.
  - vm_compute; reflexivity.
  - discriminate.
  - vm_compute; discriminate.
  - reflexivity.
  - reflexivity.
Defined.

Lemma token_of_alice :
  getUserByResetToken tagged_union "tok"
    (after (createUserResetPasswordToken "u1" "tok") accounts)
  = getUserById tagged_union "u1"
      (after (createUserResetPasswordToken "u1" "tok") accounts) ∧
  getUserByResetToken tagged_union "tok" accounts = (accounts, Ok None).
Proof.
  destruct (reset_token_round_trip tagged_union "u1" "tok" accounts)
    as (Hfound & _ & Hnever).
  split; [exact Hfound|]. apply Hnever. vm_compute; reflexivity.
Defined.

Lemma post1_moved_to_40 :
  zset_at (after (addPostToTimeline "A" 40 "post1") timelines) "timeline:A:posts"
  = Ok (<["post1" := 40%Z]> postsA) ∧
  getTimelinePostsCount "A" (after (addPostToTimeline "A" 40 "post1") timelines)
  = (after (addPostToTimeline "A" 40 "post1") timelines, Ok 2%Z).
Proof.
  destruct (addPostToTimeline_upserts "A" "post1" 40 50 postsA timelines)
    as (Hset & Hcount & _).
  - vm_compute; reflexivity.
  - split; [exact Hset | exact Hcount].
Defined.

Lemma pages_of_A :
  ranked_pages postsA timelines (getTimelinePostsRange "A") ∧
  getTimelinePostsRange "A" 0 (-1) timelines = (timelines, Ok ["post2"; "post1"]).
Proof.
  split.
  - apply (proj1 (ranges_are_descending_pages "A" postsA timelines)).
    vm_compute; reflexivity.
  - vm_compute; reflexivity.
Defined.

Lemma posts_of_A_between_20_and_30 :
  ∃ entries : list (string * Z),
    getTimelinePostsInTimeInterval "A" 30 20 timelines = (timelines, Ok entries.*1) ∧
    (∀ post time, (post, time) ∈ entries ↔
       postsA !! post = Some time ∧ (20 ≤ time ≤ 30)%Z).
Proof.
  destruct (getTimelinePostsInTimeInterval_between "A" 30 20 postsA timelines)
    as (entries & Hrun & _ & _ & Hin & _).
  - vm_compute; reflexivity.
  - exists entries. split; [exact Hrun | exact Hin].
Defined.

Lemma post1_removed_from_C :
  after (removePostFromTimeline "C" "post1") timelines !! "timeline:C:posts" = None ∧
  isPostPresentInTimeline number_reply "C" "post1"
    (after (removePostFromTimeline "C" "post1") timelines)
  = (after (removePostFromTimeline "C" "post1") timelines, Ok JNull).
Proof.
  destruct (removePostFromTimeline_removes number_reply "C" "post1" postsC timelines)
    as (_ & Habsent & Hgone & _).
  - vm_compute; reflexivity.
  - split; [|exact Habsent].
    apply Hgone. unfold postsC. by rewrite dom_singleton_L.
Defined.

Lemma request_of_u1_to_g1 :
  isSubscriptionRequestPresent number_reply "u1" "g1"
    (after (createUserSubscriptionRequest "u1" 5 "g1") accounts)
  = (after (createUserSubscriptionRequest "u1" 5 "g1") accounts, Ok (JBool true)) ∧
  isSubscriptionRequestPresent number_reply "u1" "g1"
    (after (deleteUserSubscriptionRequest "g1" "u1")
       (after (createUserSubscriptionRequest "u1" 5 "g1") accounts))
  = (after (deleteUserSubscriptionRequest "g1" "u1")
       (after (createUserSubscriptionRequest "u1" 5 "g1") accounts), Ok JNull).
Proof.
  destruct (subscription_request_roles "u1" "g1" 5 ∅ ∅ accounts)
    as (Hpresent & _ & Hremoved & _).
  - reflexivity.
  - vm_compute; reflexivity.
  - vm_compute; reflexivity.
  - split; [exact Hpresent | exact Hremoved].
Defined.

Lemma erin_likes_P :
  hasUserLikedPost number_reply "erin" "P" (after (createUserPostLike 7 "P" "erin") liked)
  = (after (createUserPostLike 7 "P" "erin") liked, Ok (JBool true)) ∧
  getPostLikesCount "P" (after (createUserPostLike 7 "P" "erin") liked)
  = (after (createUserPostLike 7 "P" "erin") liked, Ok 4%Z).
Proof.
  destruct (like_lifecycle "P" "erin" 7 9 likes liked) as (Hliked & _ & Hcount & _).
  - reflexivity.
  - vm_compute; reflexivity.
  - split; [exact Hliked | exact Hcount].
Defined.

Lemma likes_rank_of_u1 :
  after (changeUserStats number_reply "u1" "likes" 3)
    (after (changeUserStats number_reply "u1" "likes" 2) ∅)
  = after (changeUserStats number_reply "u1" "likes" 5) ∅.
Proof.
  destruct (changeUserStats_accumulates number_reply "u1" "likes" 2 3 0 ∅ ∅)
    as (_ & Hsum & _).
  - reflexivity.
  - exact Hsum.
Defined.

Lemma common_posts_either_way :
  (getTimelinesIntersectionPostIds "6f1c" "A" "B" timelines).2
  = (getTimelinesIntersectionPostIds "77aa" "B" "A" timelines).2 ∧
  (getTimelinesIntersectionPostIds "6f1c" "A" "B" timelines).1 = timelines.
Proof.
  destruct (intersection_is_symmetric_and_traceless "6f1c" "77aa" "A" "B"
              postsA postsB timelines) as (Hsym & Hsame & _).
  - vm_compute; reflexivity.
  - vm_compute; reflexivity.
  - split; [exact Hsym|]. apply Hsame. vm_compute; reflexivity.
Defined.

Lemma merge_of_C_and_D_either_way :
  createMergedPostsTimeline "M" "C" "D" timelines
  = createMergedPostsTimeline "M" "D" "C" timelines.
Proof.
  apply (merge_is_symmetric "M" "C" "D" postsC postsD timelines);
    vm_compute; reflexivity.
Defined.

Lemma p1_used_in_t1_once :
  after (createPostUsageInTimeline "p1" "t1")
    (after (createPostUsageInTimeline "p1" "t1") ∅)
  = after (createPostUsageInTimeline "p1" "t1") ∅ ∧
  set_at (after (deletePostUsageInTimeline "p1" "t1")
            (after (createPostUsageInTimeline "p1" "t1") ∅)) "post:p1:timelines"
  = Ok (∅ ∖ {[ "t1" ]}).
Proof.
  destruct (post_usages_form_a_set "p1" "t1" ∅ ∅) as (_ & Hagain & Hout).
  - reflexivity.
  - split; [exact Hagain | exact Hout].
Defined.

Lemma p1_posted_to_nothing_is_rejected :
  createPostPostedTo "p1" [] ∅ = (∅, Err WrongArity) ∧
  ∃ members,
    getPostPostedToIds "p1" (after (createPostPostedTo "p1" ["t1"; "t2"]) ∅)
    = (after (createPostPostedTo "p1" ["t1"; "t2"]) ∅, Ok members) ∧
    NoDup members ∧
    ∀ t, t ∈ members ↔ t ∈ (∅ : gset string) ∨ t ∈ ["t1"; "t2"].
Proof.
  split.
  - apply (posted_to_records_every_destination "p1" [] ∅ ∅); reflexivity.
  - apply (posted_to_records_every_destination "p1" ["t1"; "t2"] ∅ ∅);
      [reflexivity | discriminate].
Defined.

Lemma c3_comes_last :
  getPostCommentsRange "p1" 0 (-1) (after (addCommentToPost "p1" "c3") commented)
  = (after (addCommentToPost "p1" "c3") commented, Ok ["c1"; "c2"; "c1"; "c3"]).
Proof.
  destruct (comments_and_attachments_are_appended "p1" "c3" ["c1"; "c2"; "c1"] commented)
    as [Hcomments _].
  destruct Hcomments as (_ & Hrange & _).
  - vm_compute; reflexivity.
  - exact Hrange.
Defined.

Lemma first_c1_is_removed :
  list_at (after (removeCommentFromPost "p1" "c1") commented) "post:p1:comments"
  = Ok ["c2"; "c1"].
Proof.
  destruct (removals_from_the_lists_of_a_post "p1" "c1" ["c1"; "c2"; "c1"] commented)
    as [Hcomments _].
  destruct Hcomments as (_ & Hfirst & _).
  - vm_compute; reflexivity.
  - apply (Hfirst [] ["c2"; "c1"]); [reflexivity|]. apply not_elem_of_nil.
Defined.

Lemma empty_discussions_timeline_of_u1 :
  createPost "p1" ∅ ∅ = (∅, Err WrongArity) ∧
  createUserDiscussionsTimeline "u1" ∅ ∅
  = ({[ "user:u1:timelines" := VHash {[ "undefined" := "u1" ]} ]}, Err WrongArity).
Proof.
  destruct (creation_with_empty_payload "p1" "u1" ∅ ∅)
    as (Hpost & _ & _ & Htimeline & _); try reflexivity.
  split; [exact Hpost | exact Htimeline].
Defined.

Lemma account_without_username :
  createUser "u9" {[ "email" := "x@example.org" ]} ∅ = (∅, Err KeysShouldBeStrings).
Proof.
  apply createUser_without_username_writes_nothing; reflexivity.
Defined.

